(** * Quiz application: answer ledger, view filter, navigation, summary

    Shallow embedding of the React component [App] (with its helpers
    [getInitialAnswers] and [loadAnswersFromStorage]) and of the types of
    [types.ts].  Component state is threaded explicitly through the
    handlers; every [useMemo] value is a function of the state. *)

From Stdlib Require Import ZArith String Ascii Lia.
From stdpp Require Import base tactics option list sorting.

Local Open Scope nat_scope.

(** ** The JavaScript primitives the component relies on *)

Module Js.

(** *** Strings

    Strings are sequences of 8-bit characters, text outside the ASCII
    range being held as its UTF-8 bytes; the case mapping and the white
    space class are the ECMAScript ones restricted to the ASCII range. *)

Definition isWhiteSpace (c : ascii) : bool :=
  let n := nat_of_ascii c in
  (n =? 32) || ((9 <=? n) && (n <=? 13)).

Definition lowerChar (c : ascii) : ascii :=
  let n := nat_of_ascii c in
  if (65 <=? n) && (n <=? 90) then ascii_of_nat (n + 32) else c.

Fixpoint toLowerCase (s : string) : string :=
  match s with
  | EmptyString => EmptyString
  | String c s' => String (lowerChar c) (toLowerCase s')
  end.

Fixpoint trimStart (s : string) : string :=
  match s with
  | EmptyString => EmptyString
  | String c s' => if isWhiteSpace c then trimStart s' else s
  end.

Fixpoint trimEnd (s : string) : string :=
  match s with
  | EmptyString => EmptyString
  | String c s' =>
      match trimEnd s' with
      | EmptyString => if isWhiteSpace c then EmptyString
                       else String c EmptyString
      | t => String c t
      end
  end.

Definition trim (s : string) : string := trimEnd (trimStart s).

(** Truthiness of a string value: every string but the empty one. *)
Definition truthy (s : string) : bool :=
  match s with EmptyString => false | String _ _ => true end.

(** [s.includes(q)]: [q] occurs in [s] at some offset. *)
Fixpoint includes (s q : string) : bool :=
  if String.prefix q s then true
  else match s with
       | EmptyString => false
       | String _ s' => includes s' q
       end.

(** [parts.join(sep)]. *)
Definition join (sep : string) (parts : list string) : string :=
  String.concat sep parts.

(** *** Arrays

    An array whose elements may be [undefined] (a hole left by a write
    past the end, or a [null] read back from JSON) is a list of
    optional elements; [None] is such a slot. *)

Section Arrays.
Context {A : Type}.

(** [arr[i] = v] on a copy of the array.  Writing past the end grows
    the array and leaves the skipped slots empty. *)
Definition assign (arr : list (option A)) (i : nat) (v : A)
  : list (option A) :=
  if decide (i < length arr) then <[i := Some v]> arr
  else arr ++ replicate (i - length arr) None ++ [Some v].

(** [arr.reduce(f, init)], the callback receiving the index too. *)
Fixpoint reduceFrom {B : Type} (f : B → A → nat → B)
    (k : nat) (arr : list A) (acc : B) : B :=
  match arr with
  | [] => acc
  | x :: rest => reduceFrom f (S k) rest (f acc x k)
  end.

Definition reduce {B : Type} (f : B → A → nat → B)
    (arr : list A) (init : B) : B :=
  reduceFrom f 0 arr init.

(** [arr.map((_, index) => index)]. *)
Definition indices (arr : list A) : list nat := seq 0 (length arr).

(** The offsets, counted from [k], of the elements that satisfy [p]:
    what a [reduce] that pushes the index of each such element collects. *)
Fixpoint positionsFrom (p : A → bool) (k : nat) (arr : list A) : list nat :=
  match arr with
  | [] => []
  | x :: rest =>
      if p x then k :: positionsFrom p (S k) rest
      else positionsFrom p (S k) rest
  end.
End Arrays.

(** [arr.includes(x)] on an array of indices. *)
Definition arrayIncludes (arr : list nat) (x : nat) : bool :=
  existsb (Nat.eqb x) arr.

(** [arr.indexOf(x)]: the first offset holding [x], or [-1]. *)
Fixpoint indexOfFrom (k : Z) (arr : list nat) (x : nat) : Z :=
  match arr with
  | [] => (-1)%Z
  | y :: rest => if Nat.eqb y x then k else indexOfFrom (k + 1)%Z rest x
  end.

Definition indexOf (arr : list nat) (x : nat) : Z := indexOfFrom 0%Z arr x.

(** *** Numbers

    Scores are [number]s.  The summary only adds them up from [0] and
    the properties below only compare them, so the embedding is generic
    in the carrier; [Z] is the instance used for concrete runs. *)

Class Number (num : Type) := {
  zero : num;
  add : num → num → num;
  le : num → num → Prop;
}.

(** Laws of an ordered addition: they hold of the integers and of
    rounded non-negative floating-point addition alike. *)
Class NumberOrder (num : Type) `{Number num} : Prop := {
  le_refl a : le a a;
  le_trans a b c : le a b → le b c → le a c;
  add_mono_l a b s : le a b → le (add a s) (add b s);
  add_nonneg_r a s : le zero s → le a (add a s);
  add_zero_r a : le (add a zero) a;
}.

#[global] Instance Z_Number : Number Z :=
  {| zero := 0%Z; add := Z.add; le := Z.le |}.

End Js.

(** ** types.ts *)

Record QuestionOption := {
  opt_label : string;
  opt_text : string;
}.

Record QuestionAnswer := {
  ans_label : string;
  ans_text : string;
}.

Record QuestionItem {num : Type} := {
  id : Z;
  question : string;
  score : option num;
  options : list QuestionOption;
  answer : QuestionAnswer;
}.
Arguments QuestionItem : clear implicits.

Record UserAnswer := {
  choice : option string;
  correct : option bool;
}.

Inductive ViewMode := all | wrong.

#[global] Instance ViewMode_eq_dec : EqDecision ViewMode.
Proof. solve_decision. Defined.

(** The answer ledger: one slot per catalog position. *)
Abbreviation Ledger := (list (option UserAnswer)).

Definition blank : UserAnswer := {| choice := None; correct := None |}.

(** ** Storage helpers *)

Definition getInitialAnswers (size : nat) : Ledger :=
  replicate size (Some blank).

(** What reading the stored ledger comes to inside the [try] block of
    [loadAnswersFromStorage]. *)
Inductive StorageRead :=
| NoItem                      (* [getItem] gave [null] or the empty string *)
| ParseThrows                 (* [JSON.parse] raised, caught and logged *)
| Parsed (parsed : Ledger).   (* [JSON.parse] gave an array of records *)

Definition loadAnswersFromStorage (saved : StorageRead) (size : nat) : Ledger :=
  match saved with
  | Parsed parsed =>
      if decide (length parsed = size) then parsed
      else if decide (length parsed < size) then
        parsed ++ getInitialAnswers (size - length parsed)
      else take size parsed
  | NoItem | ParseThrows => getInitialAnswers size
  end.

(** ** App.tsx: the component *)

Section App.
Context {num : Type} {numOps : Js.Number num}.

(** The [useState] cells of [App] that the answer and view logic reads
    or writes (the fetch life cycle cells [loading] and [error] only
    select what is rendered). *)
Record AppState := {
  questions : list (QuestionItem num);
  userAnswers : Ledger;
  currentIndex : nat;
  viewMode : ViewMode;
  statusMessage : option string;
  searchQuery : string;
}.

Definition initialState : AppState :=
  {| questions := []; userAnswers := []; currentIndex := 0;
     viewMode := all; statusMessage := None; searchQuery := EmptyString |}.

Definition setQuestions (v : list (QuestionItem num)) (st : AppState) :=
  {| questions := v; userAnswers := userAnswers st;
     currentIndex := currentIndex st; viewMode := viewMode st;
     statusMessage := statusMessage st; searchQuery := searchQuery st |}.

Definition setUserAnswers (v : Ledger) (st : AppState) :=
  {| questions := questions st; userAnswers := v;
     currentIndex := currentIndex st; viewMode := viewMode st;
     statusMessage := statusMessage st; searchQuery := searchQuery st |}.

Definition setCurrentIndex (v : nat) (st : AppState) :=
  {| questions := questions st; userAnswers := userAnswers st;
     currentIndex := v; viewMode := viewMode st;
     statusMessage := statusMessage st; searchQuery := searchQuery st |}.

Definition setViewMode (v : ViewMode) (st : AppState) :=
  {| questions := questions st; userAnswers := userAnswers st;
     currentIndex := currentIndex st; viewMode := v;
     statusMessage := statusMessage st; searchQuery := searchQuery st |}.

Definition setStatusMessage (v : option string) (st : AppState) :=
  {| questions := questions st; userAnswers := userAnswers st;
     currentIndex := currentIndex st; viewMode := viewMode st;
     statusMessage := v; searchQuery := searchQuery st |}.

Definition setSearchQuery (v : string) (st : AppState) :=
  {| questions := questions st; userAnswers := userAnswers st;
     currentIndex := currentIndex st; viewMode := viewMode st;
     statusMessage := statusMessage st; searchQuery := v |}.

(** [userAnswers[i]] as a record, if the slot holds one. *)
Definition answerAt (answers : Ledger) (i : nat) : option UserAnswer :=
  match answers !! i with
  | Some (Some a) => Some a
  | _ => None
  end.

Definition currentQuestion (st : AppState) : option (QuestionItem num) :=
  questions st !! currentIndex st.

Definition currentAnswer (st : AppState) : option UserAnswer :=
  answerAt (userAnswers st) (currentIndex st).

(** *** summary *)

(** [item && item.correct !== null] *)
Definition isAnswered (item : option UserAnswer) : bool :=
  match item with
  | Some a => match correct a with Some _ => true | None => false end
  | None => false
  end.

(** [item?.correct] as a condition *)
Definition isCorrect (item : option UserAnswer) : bool :=
  match item with
  | Some a => match correct a with Some b => b | None => false end
  | None => false
  end.

(** [item?.correct === false] *)
Definition isWrong (item : option UserAnswer) : bool :=
  match item with
  | Some a => match correct a with Some b => negb b | None => false end
  | None => false
  end.

(** [question.score ?? 0] *)
Definition scoreOrZero (q : QuestionItem num) : num :=
  match score q with Some s => s | None => Js.zero end.

(** [questions[index]?.score ?? 0] *)
Definition scoreAt (qs : list (QuestionItem num)) (index : nat) : num :=
  match qs !! index with
  | Some q => scoreOrZero q
  | None => Js.zero
  end.

Record Summary := {
  answeredCount : nat;
  correctCount : nat;
  wrongCount : nat;
  totalScore : num;
  fullScore : num;
}.

Definition summary (qs : list (QuestionItem num)) (answers : Ledger)
  : Summary :=
  {| answeredCount := length (List.filter isAnswered answers);
     correctCount := length (List.filter isCorrect answers);
     wrongCount := length (List.filter isWrong answers);
     totalScore :=
       Js.reduce (fun acc ans index =>
                    if isCorrect ans then Js.add acc (scoreAt qs index)
                    else acc)
                 answers Js.zero;
     fullScore :=
       Js.reduce (fun acc q _ => Js.add acc (scoreOrZero q)) qs Js.zero |}.

(** *** The view filter *)

Definition wrongQuestionIndices (answers : Ledger) : list nat :=
  Js.reduce (fun list ans index =>
               if isWrong ans then list ++ [index] else list)
            answers [].

Definition optionsText (q : QuestionItem num) : string :=
  Js.join " " (map (fun opt => Js.toLowerCase (opt_text opt)) (options q)).

Definition searchResultIndices (qs : list (QuestionItem num))
    (query0 : string) : list nat :=
  if negb (Js.truthy (Js.trim query0)) then Js.indices qs
  else
    let query := Js.toLowerCase query0 in
    Js.reduce (fun list q index =>
                 let questionText := Js.toLowerCase (question q) in
                 if Js.includes questionText query
                    || Js.includes (optionsText q) query
                 then list ++ [index] else list)
              qs [].

Definition visibleIndices (qs : list (QuestionItem num)) (answers : Ledger)
    (mode : ViewMode) (query0 : string) : list nat :=
  let indices :=
    match mode with
    | wrong => wrongQuestionIndices answers
    | all => if Js.truthy (Js.trim query0)
             then searchResultIndices qs query0
             else Js.indices qs
    end in
  if Js.truthy (Js.trim query0)
  then List.filter (Js.arrayIncludes (searchResultIndices qs query0)) indices
  else indices.

Definition visible (st : AppState) : list nat :=
  visibleIndices (questions st) (userAnswers st) (viewMode st)
    (searchQuery st).

(** *** Navigation *)

Definition currentVisiblePosition (st : AppState) : Z :=
  Js.indexOf (visible st) (currentIndex st).

(** [None] is [null]; the offsets read below lie within the array, so no
    read comes out [undefined] (see [navigation_targets]). *)
Definition previousIndex (st : AppState) : option nat :=
  let pos := currentVisiblePosition st in
  if (0 <? pos)%Z then visible st !! Z.to_nat (pos - 1) else None.

Definition nextIndex (st : AppState) : option nat :=
  let pos := currentVisiblePosition st in
  if negb (pos =? -1)%Z && (pos <? Z.of_nat (length (visible st)) - 1)%Z
  then visible st !! Z.to_nat (pos + 1)
  else None.

Definition isSubmitted (st : AppState) : bool :=
  isAnswered (currentAnswer st).

(** [currentAnswer?.choice ?? null] *)
Definition selectedChoice (st : AppState) : option string :=
  match currentAnswer st with
  | Some a => choice a
  | None => None
  end.

(** *** Handlers *)

Definition noSelectionHint : string := "请先选择一个选项".

Definition handleSelect (c : string) (st : AppState) : AppState :=
  let prev := userAnswers st in
  let i := currentIndex st in
  let kept := match answerAt prev i with
              | Some a => correct a
              | None => None
              end in
  setStatusMessage None
    (setUserAnswers
       (Js.assign prev i {| choice := Some c; correct := kept |}) st).

(** The path [handleSubmit] takes: the two early returns, or grading. *)
Inductive SubmitPath :=
| NoCurrentQuestion                              (* [!currentQuestion] *)
| NothingSelected                                (* [!selectedChoice] *)
| Grade (q : QuestionItem num) (c : string).

Definition submitPath (st : AppState) : SubmitPath :=
  match currentQuestion st with
  | None => NoCurrentQuestion
  | Some q =>
      match selectedChoice st with
      | Some c => if Js.truthy c then Grade q c else NothingSelected
      | None => NothingSelected
      end
  end.

Definition handleSubmit (st : AppState) : AppState :=
  match submitPath st with
  | NoCurrentQuestion => st
  | NothingSelected => setStatusMessage (Some noSelectionHint) st
  | Grade q c =>
      setUserAnswers
        (Js.assign (userAnswers st) (currentIndex st)
           {| choice := Some c;
              correct := Some (String.eqb c (ans_label (answer q))) |})
        st
  end.

Definition handleResetQuestion (st : AppState) : AppState :=
  setStatusMessage None
    (setUserAnswers (Js.assign (userAnswers st) (currentIndex st) blank) st).

Definition handlePrevious (st : AppState) : AppState :=
  match previousIndex st with
  | None => st
  | Some target => setStatusMessage None (setCurrentIndex target st)
  end.

Definition handleNext (st : AppState) : AppState :=
  match nextIndex st with
  | None => st
  | Some target => setStatusMessage None (setCurrentIndex target st)
  end.

Definition handleJump (index : nat) (st : AppState) : AppState :=
  setStatusMessage None (setCurrentIndex index st).

Definition handleToggleView (st : AppState) : AppState :=
  match viewMode st with
  | all => setViewMode wrong st
  | wrong => setViewMode all st
  end.

Definition handleClearSearch (st : AppState) : AppState :=
  setStatusMessage None (setSearchQuery EmptyString st).

(** [confirmed] is the answer to the confirmation dialog, [removeThrows]
    whether [localStorage.removeItem] raised inside the [try] block. *)
Definition handleClearRecords (confirmed removeThrows : bool)
    (st : AppState) : AppState :=
  if confirmed && negb removeThrows then
    setStatusMessage None
      (setUserAnswers (getInitialAnswers (length (questions st))) st)
  else st.

(** The fetch effect once the catalog has arrived. *)
Definition questionsLoaded (data : list (QuestionItem num))
    (saved : StorageRead) (st : AppState) : AppState :=
  setUserAnswers (loadAnswersFromStorage saved (length data))
    (setQuestions data st).

(** *** The mode button

    [<button onClick={handleToggleView}
             disabled={viewMode === 'all' && summary.wrongCount === 0}>]:
    a disabled button dispatches no click. *)

Definition toggleViewDisabled (st : AppState) : bool :=
  bool_decide (viewMode st = all)
  && (wrongCount (summary (questions st) (userAnswers st)) =? 0).

Definition clickToggleView (st : AppState) : AppState :=
  if toggleViewDisabled st then st else handleToggleView st.

(** *** The cursor effect

    [useEffect(..., [viewMode, wrongQuestionIndices, currentIndex])]. *)

Definition cursorEffect (st : AppState) : AppState :=
  let wrongs := wrongQuestionIndices (userAnswers st) in
  match viewMode st with
  | all => st
  | wrong =>
      if length wrongs =? 0 then st
      else if negb (Js.arrayIncludes wrongs (currentIndex st)) then
        match wrongs !! 0 with
        | Some first => setCurrentIndex first st
        | None => st
        end
      else st
  end.

(** Rendering settles when the effect asks for no further update. *)
Definition settled (st : AppState) : Prop := cursorEffect st = st.

(** *** Events and reachable states *)

Inductive Action :=
| QuestionsLoaded (data : list (QuestionItem num)) (saved : StorageRead)
| Select (c : string)
| Submit
| ResetQuestion
| Previous
| Next
| Jump (index : nat)
| ToggleView
| SetSearchQuery (q : string)
| ClearSearch
| ClearRecords (confirmed removeThrows : bool).

Definition handle (a : Action) (st : AppState) : AppState :=
  match a with
  | QuestionsLoaded data saved => questionsLoaded data saved st
  | Select c => handleSelect c st
  | Submit => handleSubmit st
  | ResetQuestion => handleResetQuestion st
  | Previous => handlePrevious st
  | Next => handleNext st
  | Jump index => handleJump index st
  | ToggleView => handleToggleView st
  | SetSearchQuery q => setSearchQuery q st
  | ClearSearch => handleClearSearch st
  | ClearRecords confirmed removeThrows =>
      handleClearRecords confirmed removeThrows st
  end.

(** One event: the handler's update, then the effect of the render that
    follows. *)
Definition step (a : Action) (st : AppState) : AppState :=
  cursorEffect (handle a st).

Inductive reachable : AppState → Prop :=
| reachable_initial : reachable (cursorEffect initialState)
| reachable_step a st : reachable st → reachable (step a st).

End App.

Arguments AppState : clear implicits.
Arguments Summary : clear implicits.
Arguments Action : clear implicits.

(** ** App.tsx: what is rendered and which events it offers *)

Section Ui.
Context {num : Type} {numOps : Js.Number num}.

(** [questionStatus]: the class of a navigator button. *)
Inductive QuestionStatus := Pending | Correct | Wrong.

Definition questionStatus (item : option UserAnswer) : QuestionStatus :=
  match item with
  | None => Pending
  | Some a =>
      match correct a with
      | None => Pending
      | Some true => Correct
      | Some false => Wrong
      end
  end.

(** The component together with the fetch life cycle cells and the
    [localStorage] entry under [STORAGE_KEY].  The entry is kept as what
    reading and parsing it gives: [JSON.parse] of [JSON.stringify] of a
    ledger is that ledger, an empty slot coming back as [null]. *)
Record Page := {
  app : AppState num;
  loading : bool;
  error : option string;
  storage : StorageRead;
}.

Definition initialPage (stored : StorageRead) : Page :=
  {| app := initialState; loading := true; error := None;
     storage := stored |}.

(** [renderBody]: the card shown in the main area. *)
Inductive Body :=
| LoadingCard
| ErrorCard
| NoWrongCard
| NoMatchCard
| NoQuestionCard
| QuestionCard (q : QuestionItem num).

Definition renderBody (pg : Page) : Body :=
  let st := app pg in
  if loading pg then LoadingCard
  else if match error pg with Some m => Js.truthy m | None => false end
  then ErrorCard
  else if bool_decide (viewMode st = wrong)
          && (length (wrongQuestionIndices (userAnswers st)) =? 0)
  then NoWrongCard
  else if length (visible st) =? 0 then NoMatchCard
  else match currentQuestion st with
       | None => NoQuestionCard
       | Some q => QuestionCard q
       end.

(** What can happen to the page: the outcome of the fetch started on
    mount, and the controls of the side bar and of the question card. *)
Inductive UiEvent :=
| FetchSucceeded (data : list (QuestionItem num))
| FetchFailed (message : string)
| ClickOption (label : string)
| ClickSubmit
| ClickReset
| ClickPrevious
| ClickNext
| ClickNavigator (index : nat)
| ClickToggleView
| TypeSearch (q : string)
| ClickClearSearch
| ClickClearRecords (confirmed removeThrows : bool).

(** A control takes part when it is rendered and not [disabled]; the
    fetch is pending exactly while [loading] holds. *)
Definition enabled (ev : UiEvent) (pg : Page) : bool :=
  let st := app pg in
  match ev with
  | FetchSucceeded _ | FetchFailed _ => loading pg
  | ClickOption label =>
      match renderBody pg with
      | QuestionCard q =>
          negb (isSubmitted st)
          && existsb (String.eqb label) (map opt_label (options q))
      | _ => false
      end
  | ClickSubmit =>
      match renderBody pg with
      | QuestionCard _ =>
          negb (isSubmitted st)
          && match selectedChoice st with
             | Some c => Js.truthy c
             | None => false
             end
      | _ => false
      end
  | ClickReset =>
      match renderBody pg with
      | QuestionCard _ => isSubmitted st
      | _ => false
      end
  | ClickPrevious =>
      match renderBody pg with
      | QuestionCard _ =>
          match previousIndex st with Some _ => true | None => false end
      | _ => false
      end
  | ClickNext =>
      match renderBody pg with
      | QuestionCard _ =>
          match nextIndex st with Some _ => true | None => false end
      | _ => false
      end
  | ClickNavigator index => Js.arrayIncludes (visible st) index
  | ClickToggleView => negb (toggleViewDisabled st)
  | TypeSearch _ => true
  | ClickClearSearch => Js.truthy (searchQuery st)
  | ClickClearRecords _ _ => true
  end.

(** The state update the event's handler asks for. *)
Definition dispatch (ev : UiEvent) (pg : Page) : AppState num :=
  let st := app pg in
  match ev with
  | FetchSucceeded data => questionsLoaded data (storage pg) st
  | FetchFailed _ => st
  | ClickOption label => handleSelect label st
  | ClickSubmit => handleSubmit st
  | ClickReset => handleResetQuestion st
  | ClickPrevious => handlePrevious st
  | ClickNext => handleNext st
  | ClickNavigator index => handleJump index st
  | ClickToggleView => handleToggleView st
  | TypeSearch q => setSearchQuery q st
  | ClickClearSearch => handleClearSearch st
  | ClickClearRecords confirmed removeThrows =>
      handleClearRecords confirmed removeThrows st
  end.

(** Whether the handler calls [setUserAnswers] (always with a new
    array, so the saving effect runs). *)
Definition setsUserAnswers (ev : UiEvent) (pg : Page) : bool :=
  match ev with
  | FetchSucceeded _ | ClickOption _ | ClickReset => true
  | ClickSubmit =>
      match submitPath (app pg) with Grade _ _ => true | _ => false end
  | ClickClearRecords confirmed removeThrows => confirmed && negb removeThrows
  | _ => false
  end.

(** [saveAnswersToStorage]: a failing [setItem] is caught and logged. *)
Definition saveAnswersToStorage (answers : Ledger) (setItemThrows : bool)
    (stored : StorageRead) : StorageRead :=
  if setItemThrows then stored else Parsed answers.

(** The saving effect: [if (userAnswers.length > 0) save]. *)
Definition saveEffect (answers : Ledger) (setItemThrows : bool)
    (stored : StorageRead) : StorageRead :=
  if 0 <? length answers then saveAnswersToStorage answers setItemThrows stored
  else stored.

(** One event: the handler (with [removeItem] for a confirmed clear),
    then the effects of the render that follows. *)
Definition uiStep (ev : UiEvent) (setItemThrows : bool) (pg : Page) : Page :=
  let st := cursorEffect (dispatch ev pg) in
  let kept :=
    match ev with
    | ClickClearRecords true false => NoItem
    | _ => storage pg
    end in
  {| app := st;
     loading :=
       match ev with
       | FetchSucceeded _ | FetchFailed _ => false
       | _ => loading pg
       end;
     error :=
       match ev with
       | FetchFailed message => Some message
       | _ => error pg
       end;
     storage :=
       if setsUserAnswers ev pg
       then saveEffect (userAnswers st) setItemThrows kept
       else kept |}.

(** The pages of a session that finds [stored] under the storage key. *)
Inductive uiReachable (stored : StorageRead) : Page → Prop :=
| ui_mounted : uiReachable stored (initialPage stored)
| ui_event ev setItemThrows pg :
    uiReachable stored pg →
    enabled ev pg = true →
    uiReachable stored (uiStep ev setItemThrows pg).

End Ui.

Arguments Page : clear implicits.
Arguments Body : clear implicits.
Arguments UiEvent : clear implicits.

(** ** scripts/convertQuiz.cjs: the conversion loop *)

Module ConvertQuiz.

Definition answerPrefix : string := "答案:".

(** [s.split(sep)] for a one-character separator. *)
Fixpoint split (sep : ascii) (s : string) : list string :=
  match s with
  | EmptyString => [EmptyString]
  | String c rest =>
      if Ascii.eqb c sep then EmptyString :: split sep rest
      else match split sep rest with
           | [] => [String c EmptyString]
           | first :: others => String c first :: others
           end
  end.

Inductive ConvertError :=
| MissingAnswerLine (block : string)
| UnparsableAnswerLine (line : string).

Section Loop.
Context {num : Type}.

(** The helpers built on regular expressions, and the blocks that
    [raw.split(/\n\s*\n/)] cuts the input into.  [parseAnswer] gives
    [None] where it throws. *)
Variable parseScore : string → option num.
Variable normalizeQuestion : string → string.
Variable parseOptions : string → list QuestionOption.
Variable parseAnswer : string → option QuestionAnswer.
Variable stripOptionPrefix : string → string.

(** [block.split('\n').map((line) => line.trim()).filter(Boolean)] *)
Definition linesOf (block : string) : list string :=
  List.filter Js.truthy (map Js.trim (split "010"%char block)).

(** The loop over [lines.slice(1)] that stops at the answer line. *)
Fixpoint optionLinesOf (lines : list string) : list string :=
  match lines with
  | [] => []
  | line :: rest =>
      if String.prefix answerPrefix line then []
      else Js.trim (stripOptionPrefix line) :: optionLinesOf rest
  end.

(** The body of the loop for a block of at least three lines: the
    question to push given the questions pushed so far, or the error
    thrown. *)
Definition convertBlock (block : string) (lines : list string)
    (questions : list (QuestionItem num))
  : ConvertError + QuestionItem num :=
  let questionLine := match lines with l :: _ => l | [] => EmptyString end in
  match List.find (String.prefix answerPrefix) lines with
  | None => inl (MissingAnswerLine block)
  | Some answerLine =>
      let optionText := Js.join " " (optionLinesOf (tail lines)) in
      match parseAnswer answerLine with
      | None => inl (UnparsableAnswerLine answerLine)
      | Some parsed =>
          inr {| id := Z.of_nat (length questions) + 1;
                 question := normalizeQuestion questionLine;
                 score := parseScore questionLine;
                 options := parseOptions optionText;
                 answer := parsed |}
      end
  end.

Fixpoint convertBlocks (blocks : list string)
    (questions : list (QuestionItem num))
  : ConvertError + list (QuestionItem num) :=
  match blocks with
  | [] => inr questions
  | block :: rest =>
      let lines := linesOf block in
      if length lines <? 3 then convertBlocks rest questions
      else match convertBlock block lines questions with
           | inl err => inl err
           | inr q => convertBlocks rest (questions ++ [q])
           end
  end.

(** [toJson] up to the file it writes: the questions serialised, or the
    error that aborts the script before anything is written. *)
Definition toJson (rawBlocks : list string)
  : ConvertError + list (QuestionItem num) :=
  convertBlocks (List.filter Js.truthy (map Js.trim rawBlocks)) [].

End Loop.

(** The blocks the loop does not skip. *)
Definition eligible (rawBlocks : list string) : list string :=
  List.filter (fun block => negb (length (linesOf block) <? 3))
    (List.filter Js.truthy (map Js.trim rawBlocks)).

End ConvertQuiz.

(** ** Vocabulary of the statements *)

(** Every graded slot holds a non-empty choice and the grade that choice
    earns against the answer label of the question at its position. *)
Definition gradedAgainst {num : Type} (qs : list (QuestionItem num))
    (answers : Ledger) : Prop :=
  ∀ i a b, answers !! i = Some (Some a) → correct a = Some b →
    ∃ q c, qs !! i = Some q ∧ choice a = Some c ∧ c ≠ EmptyString
           ∧ b = String.eqb c (ans_label (answer q)).

(** Every chosen label is the label of an option of the question at its
    position. *)
Definition choicesOffered {num : Type} (qs : list (QuestionItem num))
    (answers : Ledger) : Prop :=
  ∀ i a c, answers !! i = Some (Some a) → choice a = Some c →
    ∃ q, qs !! i = Some q ∧ c ∈ map opt_label (options q).

(** No slot of the ledger is empty. *)
Definition noEmptySlot (answers : Ledger) : Prop :=
  Forall (fun item => item ≠ None) answers.

(** [q] occurs in [s] as a substring. *)
Definition occursIn (q s : string) : Prop :=
  ∃ pre post : string, s = String.append pre (String.append q post).

(** ** Sample data *)

Definition mkOption (label text : string) : QuestionOption :=
  {| opt_label := label; opt_text := text |}.

Definition mkQuestion (n : Z) (text : string) (points : option Z)
    (opts : list QuestionOption) (key : string) : QuestionItem Z :=
  {| id := n; question := text; score := points; options := opts;
     answer := {| ans_label := key; ans_text := EmptyString |} |}.

Definition sampleCatalog : list (QuestionItem Z) :=
  [ mkQuestion 1 "Which protocol is stateless" (Some 1%Z)
      [mkOption "A" "HTTP"; mkOption "B" "FTP"] "A";
    mkQuestion 2 "Which layer routes packets" (Some 2%Z)
      [mkOption "A" "Link"; mkOption "B" "Session"; mkOption "C" "Network"] "C";
    mkQuestion 3 "Which port serves DNS" None
      [mkOption "A" "53"; mkOption "B" "80"] "A" ].

(** The catalog has arrived and nothing was stored. *)
Definition sampleFresh : AppState Z :=
  step (QuestionsLoaded sampleCatalog NoItem) (cursorEffect initialState).

(** Question 2 answered B (wrong), cursor back on question 1. *)
Definition sampleAnswered : AppState Z :=
  step (Jump 0) (step Submit (step (Select "B") (step (Jump 1) sampleFresh))).

(** A ledger whose only entry holds the empty label as choice. *)
Definition emptyLabelState : AppState Z :=
  {| questions := [mkQuestion 1 "Pick one" (Some 1%Z) [mkOption EmptyString "x"] "A"];
     userAnswers := [Some {| choice := Some EmptyString; correct := None |}];
     currentIndex := 0; viewMode := all; statusMessage := None;
     searchQuery := EmptyString |}.

(** A session without stored ledger: the catalog arrives, question 1 is
    answered A (correct), question 2 is answered B (wrong). *)
Definition samplePage : Page Z :=
  uiStep ClickSubmit false
    (uiStep (ClickOption "B") false
       (uiStep (ClickNavigator 1) false
          (uiStep ClickSubmit false
             (uiStep (ClickOption "A") false
                (uiStep (FetchSucceeded sampleCatalog) false
                   (initialPage NoItem)))))).

(** Input of the conversion script: two blocks with an answer line and a
    block too short to be a question between them.  The stand-ins for
    the helpers keep the question line and read the label that follows
    the answer prefix. *)
Definition newline : string := String "010"%char EmptyString.

Definition sampleBlocks : list string :=
  [ Js.join newline
      ["1. First"%string; "A. x B. y"%string; "答案: A. x"%string];
    Js.join newline ["stray"%string; "text"%string];
    Js.join newline
      ["2. Second"%string; "A. u B. v"%string; "答案: B. v"%string;
       "note"%string] ].

Definition sampleParseAnswer (line : string) : option QuestionAnswer :=
  Some {| ans_label := String.substring 8 1 line;
          ans_text := String.substring 11 (String.length line) line |}.

Definition sampleToJson (rawBlocks : list string)
  : ConvertQuiz.ConvertError + list (QuestionItem Z) :=
  ConvertQuiz.toJson (fun _ => None) (fun line => line) (fun _ => [])
    sampleParseAnswer (fun line => line) rawBlocks.

(** * Properties *)

#[global] Instance Z_NumberOrder : Js.NumberOrder Z.
Proof. split; simpl; intros; lia. Qed.

(** ** Array writes *)

Section AssignFacts.
Context {A : Type}.
Implicit Types (arr : list (option A)) (v : A).

Lemma assign_in_bounds arr i v :
  i < length arr → Js.assign arr i v = <[i := Some v]> arr.
Proof. intros Hi. unfold Js.assign. by rewrite decide_True. Qed.

Lemma assign_grows arr i v :
  length arr ≤ i →
  Js.assign arr i v = arr ++ replicate (i - length arr) None ++ [Some v].
Proof. intros Hi. unfold Js.assign. rewrite decide_False; [done | lia]. Qed.

Lemma assign_lookup_eq arr i v : Js.assign arr i v !! i = Some (Some v).
Proof.
  destruct (decide (i < length arr)) as [Hi | Hi].
  - rewrite assign_in_bounds by done. by apply list_lookup_insert_eq.
  - rewrite assign_grows by lia.
    rewrite lookup_app_r by lia.
    rewrite lookup_app_r; rewrite length_replicate; [| lia].
    by rewrite Nat.sub_diag.
Qed.

Lemma assign_lookup_ne arr i j v :
  i < length arr → j ≠ i → Js.assign arr i v !! j = arr !! j.
Proof.
  intros Hi Hne. rewrite assign_in_bounds by done.
  apply list_lookup_insert_ne. congruence.
Qed.

Lemma assign_length arr i v :
  i < length arr → length (Js.assign arr i v) = length arr.
Proof. intros Hi. rewrite assign_in_bounds by done. apply length_insert. Qed.

Lemma assign_assign arr i v w :
  i < length arr → Js.assign (Js.assign arr i v) i w = Js.assign arr i w.
Proof.
  intros Hi. rewrite (assign_in_bounds arr i v) by done.
  rewrite !assign_in_bounds by (by rewrite ?length_insert).
  apply list_insert_insert_eq.
Qed.
End AssignFacts.

(** ** Ledger migration *)

Lemma getInitialAnswers_length size : length (getInitialAnswers size) = size.
Proof. apply length_replicate. Qed.

(** C3.  [loadAnswersFromStorage] always returns a ledger of exactly
    [size] slots: [size] fresh records when nothing usable is stored; the
    stored ledger itself when its length is [size]; the stored records
    followed by [size - n] fresh ones when it has [n < size] of them; its
    first [size] records when it has more. *)
Theorem loadAnswersFromStorage_migrates (saved : StorageRead) (size : nat) :
  length (loadAnswersFromStorage saved size) = size ∧
  match saved with
  | NoItem | ParseThrows =>
      loadAnswersFromStorage saved size = replicate size (Some blank)
  | Parsed parsed =>
      (length parsed = size →
         loadAnswersFromStorage saved size = parsed) ∧
      (length parsed < size →
         loadAnswersFromStorage saved size
         = parsed ++ replicate (size - length parsed) (Some blank)
         ∧ take (length parsed) (loadAnswersFromStorage saved size) = parsed
         ∧ drop (length parsed) (loadAnswersFromStorage saved size)
           = replicate (size - length parsed) (Some blank)) ∧
      (size < length parsed →
         loadAnswersFromStorage saved size = take size parsed
         ∧ ∀ i, i < size →
             loadAnswersFromStorage saved size !! i = parsed !! i)
  end.
Proof.
  destruct saved as [| | parsed]; simpl.
  - split; [apply getInitialAnswers_length | done].
  - split; [apply getInitialAnswers_length | done].
  - repeat case_decide; try lia.
    + split; [done |]. repeat split; intros; try lia; done.
    + split.
      { rewrite length_app, getInitialAnswers_length. lia. }
      repeat split; intros; try lia; try done.
      * by rewrite take_app_length.
      * by rewrite drop_app_length.
    + split.
      { rewrite length_take. lia. }
      repeat split; intros; try lia; try done.
      by apply lookup_take_lt.
Qed.

(** ** Ledger mutations *)

Section LedgerFacts.
Context {num : Type} {numOps : Js.Number num}.
Implicit Types (st : AppState num) (a : UserAnswer) (q : QuestionItem num).

Lemma answerAt_record (answers : Ledger) i a :
  answers !! i = Some (Some a) → answerAt answers i = Some a.
Proof. unfold answerAt. by intros ->. Qed.

Lemma truthy_nonempty (c : string) : Js.truthy c = true ↔ c ≠ EmptyString.
Proof. destruct c; simpl; split; intros; congruence. Qed.

Lemma submitPath_in_bounds st q a :
  questions st !! currentIndex st = Some q →
  userAnswers st !! currentIndex st = Some (Some a) →
  submitPath st =
    match choice a with
    | Some c => if Js.truthy c then Grade q c else NothingSelected
    | None => NothingSelected
    end.
Proof.
  intros Hq Ha. unfold submitPath, currentQuestion, selectedChoice,
    currentAnswer. by rewrite Hq, (answerAt_record _ _ _ Ha).
Qed.

Lemma handleSubmit_frame st j :
  currentIndex st < length (userAnswers st) →
  length (userAnswers (handleSubmit st)) = length (userAnswers st) ∧
  (j ≠ currentIndex st →
   userAnswers (handleSubmit st) !! j = userAnswers st !! j).
Proof.
  intros Hi. unfold handleSubmit.
  destruct (submitPath st); simpl; try done.
  split; [by apply assign_length | by apply assign_lookup_ne].
Qed.

(** C6.  A select, submit or reset at an in-bounds cursor keeps the
    length of the ledger and the catalog and every slot but the one at
    the cursor; select stores the chosen label there and keeps the
    slot's [correct] (read as [null] when the slot holds no record);
    reset stores the blank record there whatever the slot held. *)
Theorem ledger_mutation_touches_one_entry st (c : string) :
  currentIndex st < length (userAnswers st) →
  (∀ st', st' ∈ [handleSelect c st; handleSubmit st; handleResetQuestion st] →
     questions st' = questions st ∧
     length (userAnswers st') = length (userAnswers st) ∧
     ∀ j, j ≠ currentIndex st →
       userAnswers st' !! j = userAnswers st !! j) ∧
  userAnswers (handleSelect c st) !! currentIndex st
    = Some (Some {| choice := Some c;
                    correct := answerAt (userAnswers st) (currentIndex st)
                               ≫= correct |}) ∧
  (∀ a, userAnswers st !! currentIndex st = Some (Some a) →
     userAnswers (handleSelect c st) !! currentIndex st
     = Some (Some {| choice := Some c; correct := correct a |})) ∧
  userAnswers (handleResetQuestion st) !! currentIndex st
    = Some (Some blank).
Proof.
  intros Hi. split; [| split; [| split]].
  - intros st' Hst'.
    rewrite !elem_of_cons, elem_of_nil in Hst'.
    destruct Hst' as [-> | [-> | [-> | []]]].
    + simpl. split; [done |].
      split; [by apply assign_length | intros; by apply assign_lookup_ne].
    + split.
      { unfold handleSubmit. by destruct (submitPath st). }
      split; [apply (handleSubmit_frame st 0 Hi) |].
      intros j Hj. by apply (handleSubmit_frame st j Hi).
    + simpl. split; [done |].
      split; [by apply assign_length | intros; by apply assign_lookup_ne].
  - simpl. rewrite assign_lookup_eq.
    by destruct (answerAt (userAnswers st) (currentIndex st)).
  - intros a Ha. simpl. rewrite assign_lookup_eq.
    by rewrite (answerAt_record _ _ _ Ha).
  - simpl. apply assign_lookup_eq.
Qed.

(** C4, as the code has it.  At an in-bounds cursor [handleSubmit] takes
    the no-selection path exactly when the slot's choice is [null] or the
    empty string (the guard is [!selectedChoice]); on that path it stores
    the hint as status message and changes nothing else, the ledger
    included. *)
Theorem submit_without_selection st q a :
  questions st !! currentIndex st = Some q →
  userAnswers st !! currentIndex st = Some (Some a) →
  (submitPath st = NothingSelected
   ↔ choice a = None ∨ choice a = Some EmptyString) ∧
  (choice a = None →
   handleSubmit st = setStatusMessage (Some noSelectionHint) st ∧
   statusMessage (handleSubmit st) = Some noSelectionHint ∧
   userAnswers (handleSubmit st) = userAnswers st) ∧
  (submitPath st = NothingSelected →
   handleSubmit st = setStatusMessage (Some noSelectionHint) st ∧
   userAnswers (handleSubmit st) = userAnswers st).
Proof.
  intros Hq Ha. pose proof (submitPath_in_bounds st q a Hq Ha) as Hpath.
  split; [| split].
  - rewrite Hpath. destruct (choice a) as [[| ch rest] |]; simpl; split;
      intros; try done; try (by left); try (by right).
    destruct H as [? | ?]; congruence.
  - intros Hnull. rewrite Hnull in Hpath.
    unfold handleSubmit. by rewrite Hpath.
  - intros Hnone. unfold handleSubmit. by rewrite Hnone.
Qed.

(** C5, as the code has it.  At an in-bounds cursor whose slot holds a
    non-empty choice, [handleSubmit] replaces the slot by the same choice
    graded against the answer label of the question, and submitting
    again changes nothing. *)
Theorem submit_grades_selection st q a (c : string) :
  questions st !! currentIndex st = Some q →
  userAnswers st !! currentIndex st = Some (Some a) →
  choice a = Some c →
  c ≠ EmptyString →
  userAnswers (handleSubmit st)
    = <[currentIndex st :=
          Some {| choice := Some c;
                  correct := Some (String.eqb c (ans_label (answer q))) |}]>
        (userAnswers st) ∧
  answerAt (userAnswers (handleSubmit st)) (currentIndex st)
    = Some {| choice := choice a;
              correct := Some (String.eqb c (ans_label (answer q))) |} ∧
  handleSubmit (handleSubmit st) = handleSubmit st.
Proof.
  intros Hq Ha Hc Hne.
  assert (Hi : currentIndex st < length (userAnswers st))
    by (by eapply lookup_lt_Some).
  pose proof (submitPath_in_bounds st q a Hq Ha) as Hpath.
  rewrite Hc in Hpath. apply truthy_nonempty in Hne. rewrite Hne in Hpath.
  assert (Hfirst : handleSubmit st =
    setUserAnswers (Js.assign (userAnswers st) (currentIndex st)
      {| choice := Some c;
         correct := Some (String.eqb c (ans_label (answer q))) |}) st).
  { unfold handleSubmit. by rewrite Hpath. }
  split; [| split].
  - rewrite Hfirst. simpl. by apply assign_in_bounds.
  - rewrite Hfirst. simpl. rewrite Hc.
    apply answerAt_record, assign_lookup_eq.
  - rewrite Hfirst.
    set (graded := {| choice := Some c; correct := _ |}).
    set (st1 := setUserAnswers _ st).
    assert (Hpath1 : submitPath st1 = Grade q c).
    { rewrite (submitPath_in_bounds st1 q graded); simpl.
      - by rewrite Hne.
      - done.
      - apply assign_lookup_eq. }
    unfold handleSubmit. rewrite Hpath1.
    unfold st1, setUserAnswers. simpl. by rewrite assign_assign.
Qed.

End LedgerFacts.

(** ** Reductions that collect indices *)

Section ReduceFacts.
Context {A : Type}.
Implicit Types (p : A → bool) (arr : list A) (k i : nat).

Lemma reduceFrom_push p k arr (acc : list nat) :
  Js.reduceFrom (fun list x index => if p x then list ++ [index] else list)
    k arr acc
  = acc ++ Js.positionsFrom p k arr.
Proof.
  revert k acc. induction arr as [| x rest IH]; intros k acc; simpl.
  - by rewrite app_nil_r.
  - rewrite IH. destruct (p x); [| done].
    by rewrite <- app_assoc.
Qed.

Lemma reduce_push p arr :
  Js.reduce (fun list x index => if p x then list ++ [index] else list)
    arr []
  = Js.positionsFrom p 0 arr.
Proof. unfold Js.reduce. by rewrite reduceFrom_push. Qed.

Lemma elem_of_positionsFrom p k arr i :
  i ∈ Js.positionsFrom p k arr
  ↔ k ≤ i ∧ ∃ x, arr !! (i - k) = Some x ∧ p x = true.
Proof.
  revert k. induction arr as [| x rest IH]; intros k; simpl.
  - rewrite elem_of_nil. split; [done | intros (_ & y & Hy & _); done].
  - assert (Htail : i ∈ Js.positionsFrom p (S k) rest
                    ↔ k < i ∧ ∃ y, (x :: rest) !! (i - k) = Some y
                                   ∧ p y = true).
    { rewrite IH. split.
      - intros (Hle & y & Hy & Hp). split; [lia |]. exists y.
        replace (i - k) with (S (i - S k)) by lia. done.
      - intros (Hlt & y & Hy & Hp). split; [lia |]. exists y.
        replace (i - k) with (S (i - S k)) in Hy by lia. done. }
    destruct (p x) eqn:Hpx.
    + rewrite elem_of_cons, Htail. split.
      * intros [-> | (Hlt & Hex)]; [| split; [lia | done]].
        split; [lia |]. exists x. by rewrite Nat.sub_diag.
      * intros (Hle & Hex).
        destruct (decide (i = k)) as [-> | Hne]; [by left | right].
        split; [lia | done].
    + rewrite Htail. split.
      * intros (Hlt & Hex). split; [lia | done].
      * intros (Hle & y & Hy & Hp).
        destruct (decide (i = k)) as [-> | Hne].
        { rewrite Nat.sub_diag in Hy. simpl in Hy. congruence. }
        split; [lia |]. by exists y.
Qed.

Lemma positionsFrom_ascending p k arr :
  StronglySorted lt (Js.positionsFrom p k arr).
Proof.
  revert k. induction arr as [| x rest IH]; intros k; simpl.
  - constructor.
  - destruct (p x); [| apply IH].
    apply StronglySorted_cons. split; [| apply IH].
    apply Forall_forall. intros i Hi.
    apply elem_of_positionsFrom in Hi. lia.
Qed.

Lemma positionsFrom_all k arr :
  Js.positionsFrom (fun _ => true) k arr = seq k (length arr).
Proof.
  revert k. induction arr as [| x rest IH]; intros k; simpl; [done |].
  by rewrite IH.
Qed.

Lemma indices_ascending arr : StronglySorted lt (Js.indices arr).
Proof.
  unfold Js.indices. rewrite <- (positionsFrom_all 0 arr).
  apply positionsFrom_ascending.
Qed.

Lemma length_positionsFrom p k arr :
  length (Js.positionsFrom p k arr) = length (List.filter p arr).
Proof.
  revert k. induction arr as [| x rest IH]; intros k; simpl; [done |].
  destruct (p x); simpl; by rewrite IH.
Qed.
End ReduceFacts.

Lemma filter_ascending (keep : nat → bool) (l : list nat) :
  StronglySorted lt l → StronglySorted lt (List.filter keep l).
Proof.
  induction 1 as [| x l Hsorted IH Hall]; simpl; [constructor |].
  destruct (keep x); [| done].
  constructor; [done |].
  rewrite Forall_forall in Hall |- *. intros y Hy.
  apply list_elem_of_In, filter_In in Hy as [Hy _].
  apply Hall. by apply list_elem_of_In.
Qed.

Lemma ascending_NoDup (l : list nat) : StronglySorted lt l → NoDup l.
Proof.
  induction 1 as [| x l Hsorted IH Hall]; constructor; [| done].
  intros Hx. rewrite Forall_forall in Hall. specialize (Hall x Hx). lia.
Qed.

Lemma arrayIncludes_elem_of (arr : list nat) (x : nat) :
  Js.arrayIncludes arr x = true ↔ x ∈ arr.
Proof.
  unfold Js.arrayIncludes. rewrite existsb_exists. split.
  - intros (y & Hy & Heq). apply Nat.eqb_eq in Heq as ->.
    by apply list_elem_of_In.
  - intros Hx. exists x. split; [by apply list_elem_of_In |].
    apply Nat.eqb_refl.
Qed.

(** ** The summary *)

Section SummaryFacts.
Context {num : Type} {numOps : Js.Number num}.
Implicit Types (qs : list (QuestionItem num)) (answers : Ledger).

Lemma answered_correct_or_wrong answers :
  length (List.filter isAnswered answers)
  = length (List.filter isCorrect answers)
    + length (List.filter isWrong answers).
Proof.
  induction answers as [| item rest IH]; simpl; [done |].
  destruct item as [[ch [[|] |]] |]; simpl; lia.
Qed.

Context {numOrder : Js.NumberOrder num}.

Lemma fullScore_grows qs (k : nat) (acc : num) :
  Forall (fun q => Js.le Js.zero (scoreOrZero q)) qs →
  Js.le acc
    (Js.reduceFrom (fun acc q _ => Js.add acc (scoreOrZero q)) k qs acc).
Proof.
  intros Hall. revert k acc.
  induction Hall as [| q rest Hq Hrest IH]; intros k acc; simpl.
  - apply Js.le_refl.
  - eapply Js.le_trans; [| apply IH]. by apply Js.add_nonneg_r.
Qed.

Lemma totalScore_below qs answers (k k' : nat) (total full : num) :
  Forall (fun q => Js.le Js.zero (scoreOrZero q)) (drop k qs) →
  Js.le total full →
  Js.le
    (Js.reduceFrom (fun acc ans index =>
                      if isCorrect ans then Js.add acc (scoreAt qs index)
                      else acc) k answers total)
    (Js.reduceFrom (fun acc q _ => Js.add acc (scoreOrZero q)) k'
       (drop k qs) full).
Proof.
  revert k k' total full.
  induction answers as [| ans rest IH]; intros k k' total full Hall Hle.
  - simpl. eapply Js.le_trans; [exact Hle |]. by apply fullScore_grows.
  - simpl.
    assert (Hdrop : drop (S k) qs = drop 1 (drop k qs)).
    { rewrite drop_drop. f_equal. lia. }
    assert (Hscore : scoreAt qs k = match drop k qs with
                                    | [] => Js.zero
                                    | q :: _ => scoreOrZero q
                                    end).
    { unfold scoreAt. replace (qs !! k) with (drop k qs !! 0).
      - by destruct (drop k qs).
      - rewrite lookup_drop. f_equal. lia. }
    rewrite Hscore.
    destruct (drop k qs) as [| q rest'] eqn:Hqs; simpl.
    + specialize (IH (S k) k' (if isCorrect ans then Js.add total Js.zero
                               else total) full).
      rewrite Hdrop in IH. simpl in IH. apply IH; [constructor |].
      destruct (isCorrect ans); [| done].
      eapply Js.le_trans; [apply Js.add_zero_r | done].
    + specialize (IH (S k) (S k')
                    (if isCorrect ans then Js.add total (scoreOrZero q)
                     else total)
                    (Js.add full (scoreOrZero q))).
      rewrite Hdrop in IH. simpl in IH. rewrite drop_0 in IH.
      apply Forall_cons in Hall as [Hq Hrest].
      apply IH; [done |].
      destruct (isCorrect ans).
      * by apply Js.add_mono_l.
      * eapply Js.le_trans; [exact Hle |]. by apply Js.add_nonneg_r.
Qed.

(** C7.  For every catalog and ledger the summary counts as answered
    exactly the correct and the wrong entries, and when no question has a
    negative score the total score is at most the full score. *)
Theorem summary_consistent qs answers :
  answeredCount (summary qs answers)
  = correctCount (summary qs answers) + wrongCount (summary qs answers) ∧
  ((∀ q s, q ∈ qs → score q = Some s → Js.le Js.zero s) →
   Js.le (totalScore (summary qs answers)) (fullScore (summary qs answers))).
Proof.
  split; [apply answered_correct_or_wrong |].
  intros Hscores. simpl. unfold Js.reduce.
  pose proof (totalScore_below qs answers 0 0 Js.zero Js.zero) as Hbelow.
  rewrite drop_0 in Hbelow. apply Hbelow; [| apply Js.le_refl].
  apply Forall_forall. intros q Hq.
  unfold scoreOrZero. destruct (score q) as [s |] eqn:Hs.
  - by eapply Hscores.
  - apply Js.le_refl.
Qed.

End SummaryFacts.

(** ** Substring search *)

Lemma prefix_spec (q s : string) :
  String.prefix q s = true ↔ ∃ post, s = String.append q post.
Proof.
  revert s. induction q as [| c q IH]; intros s; simpl.
  - destruct s; split; eauto.
  - destruct s as [| d s]; simpl.
    + split; [done | intros [post Hpost]; done].
    + destruct (ascii_dec c d) as [-> | Hne].
      * rewrite IH. split; intros [post Hpost]; exists post; congruence.
      * split; [done | intros [post Hpost]; congruence].
Qed.

Lemma includes_unfold (s q : string) :
  Js.includes s q =
    if String.prefix q s then true
    else match s with
         | EmptyString => false
         | String _ s' => Js.includes s' q
         end.
Proof. by destruct s. Qed.

Lemma includes_spec (s q : string) : Js.includes s q = true ↔ occursIn q s.
Proof.
  unfold occursIn. induction s as [| c s IH]; rewrite includes_unfold.
  - destruct (String.prefix q EmptyString) eqn:Hpre.
    + split; [| done]. intros _. apply prefix_spec in Hpre as [post Hpost].
      by exists EmptyString, post.
    + split; [done |]. intros (pre & post & Heq).
      destruct pre; [| done]. simpl in Heq.
      assert (String.prefix q EmptyString = true); [| congruence].
      apply prefix_spec. eauto.
  - destruct (String.prefix q (String c s)) eqn:Hpre.
    + split; [| done]. intros _. apply prefix_spec in Hpre as [post Hpost].
      by exists EmptyString, post.
    + rewrite IH. split.
      * intros (pre & post & ->). by exists (String c pre), post.
      * intros (pre & post & Heq). destruct pre as [| d pre]; simpl in Heq.
        { assert (String.prefix q (String c s) = true); [| congruence].
          apply prefix_spec. eauto. }
        injection Heq as -> ->. eauto.
Qed.

(** ** The view filter *)

Section ViewFacts.
Context {num : Type}.
Implicit Types (qs : list (QuestionItem num)) (answers : Ledger).

Lemma wrongQuestionIndices_positions answers :
  wrongQuestionIndices answers = Js.positionsFrom isWrong 0 answers.
Proof. apply (reduce_push isWrong). Qed.

Lemma elem_of_wrongQuestionIndices answers i :
  i ∈ wrongQuestionIndices answers
  ↔ ∃ a, answers !! i = Some (Some a) ∧ correct a = Some false.
Proof.
  rewrite wrongQuestionIndices_positions, elem_of_positionsFrom.
  rewrite Nat.sub_0_r. split.
  - intros (_ & [a |] & Hlook & Hwrong); [| done].
    exists a. split; [done |]. simpl in Hwrong.
    by destruct (correct a) as [[|] |].
  - intros (a & Hlook & Hwrong). split; [lia |].
    exists (Some a). split; [done |]. simpl. by rewrite Hwrong.
Qed.

Lemma searchResultIndices_active qs (query0 : string) :
  Js.truthy (Js.trim query0) = true →
  searchResultIndices qs query0
  = Js.positionsFrom
      (fun q => Js.includes (Js.toLowerCase (question q))
                  (Js.toLowerCase query0)
                || Js.includes (optionsText q) (Js.toLowerCase query0))
      0 qs.
Proof.
  intros Hquery. unfold searchResultIndices. rewrite Hquery. simpl.
  apply (reduce_push
    (fun q => Js.includes (Js.toLowerCase (question q))
                (Js.toLowerCase query0)
              || Js.includes (optionsText q) (Js.toLowerCase query0))).
Qed.

Lemma searchResultIndices_ascending qs (query0 : string) :
  StronglySorted lt (searchResultIndices qs query0).
Proof.
  destruct (Js.truthy (Js.trim query0)) eqn:Hquery.
  - rewrite searchResultIndices_active by done.
    apply positionsFrom_ascending.
  - unfold searchResultIndices. rewrite Hquery. apply indices_ascending.
Qed.

Lemma visibleIndices_wrong_subset qs answers (query0 : string) i :
  i ∈ visibleIndices qs answers wrong query0 →
  i ∈ wrongQuestionIndices answers.
Proof.
  unfold visibleIndices. destruct (Js.truthy (Js.trim query0)); [| done].
  intros Hi. by apply list_elem_of_In, filter_In in Hi as [?%list_elem_of_In _].
Qed.

Lemma visibleIndices_ascending qs answers mode (query0 : string) :
  StronglySorted lt (visibleIndices qs answers mode query0).
Proof.
  unfold visibleIndices.
  assert (Hbase : StronglySorted lt
    match mode with
    | wrong => wrongQuestionIndices answers
    | all => if Js.truthy (Js.trim query0)
             then searchResultIndices qs query0
             else Js.indices qs
    end).
  { destruct mode.
    - destruct (Js.truthy (Js.trim query0));
        [apply searchResultIndices_ascending | apply indices_ascending].
    - rewrite wrongQuestionIndices_positions.
      apply positionsFrom_ascending. }
  destruct (Js.truthy (Js.trim query0)); [| done].
  by apply filter_ascending.
Qed.

(** C8.  Every index that [visibleIndices] returns in wrong mode is the
    position of a ledger entry with [correct] equal to [false], and in
    either mode the returned indices are strictly ascending, hence free
    of duplicates. *)
Theorem visibleIndices_wrong_and_ascending qs answers mode
    (query0 : string) :
  (∀ i, i ∈ visibleIndices qs answers wrong query0 →
     ∃ a, answers !! i = Some (Some a) ∧ correct a = Some false) ∧
  StronglySorted lt (visibleIndices qs answers mode query0) ∧
  NoDup (visibleIndices qs answers mode query0).
Proof.
  split; [| split].
  - intros i Hi. by apply elem_of_wrongQuestionIndices,
      visibleIndices_wrong_subset with qs query0.
  - apply visibleIndices_ascending.
  - apply ascending_NoDup, visibleIndices_ascending.
Qed.

(** C1, as the code has it.  For a query that does not trim to the empty
    string, the search indices are exactly the catalog positions whose
    lowercase question text, or whose lowercase option texts joined by
    single spaces in option order, contain the lowercase query, taken as
    typed (white space at its ends included), as a substring. *)
Theorem searchResultIndices_matches_query qs (query0 : string) (i : nat) :
  Js.trim query0 ≠ EmptyString →
  i ∈ searchResultIndices qs query0
  ↔ ∃ q, qs !! i = Some q ∧
      (occursIn (Js.toLowerCase query0) (Js.toLowerCase (question q)) ∨
       occursIn (Js.toLowerCase query0)
         (Js.join " " (map (fun opt => Js.toLowerCase (opt_text opt))
                         (options q)))).
Proof.
  intros Hquery.
  assert (Htruthy : Js.truthy (Js.trim query0) = true).
  { by destruct (Js.trim query0). }
  rewrite searchResultIndices_active by done.
  rewrite elem_of_positionsFrom, Nat.sub_0_r. split.
  - intros (_ & q & Hq & Hmatch). exists q. split; [done |].
    apply orb_true_iff in Hmatch as [Hm | Hm]; apply includes_spec in Hm;
      [by left | by right].
  - intros (q & Hq & Hmatch). split; [lia |]. exists q. split; [done |].
    apply orb_true_iff.
    destruct Hmatch as [Hm | Hm]; apply includes_spec in Hm;
      [by left | by right].
Qed.

End ViewFacts.

(** ** Navigation *)

Lemma indexOfFrom_absent (k : Z) (arr : list nat) (x : nat) :
  x ∉ arr → Js.indexOfFrom k arr x = (-1)%Z.
Proof.
  revert k. induction arr as [| y rest IH]; intros k Hx; simpl; [done |].
  apply not_elem_of_cons in Hx as [Hne Hrest].
  destruct (Nat.eqb_spec y x) as [-> | _]; [done | by apply IH].
Qed.

Lemma indexOfFrom_first (k : Z) (arr : list nat) (x p : nat) :
  arr !! p = Some x →
  (∀ j, j < p → arr !! j ≠ Some x) →
  Js.indexOfFrom k arr x = (k + Z.of_nat p)%Z.
Proof.
  revert k p. induction arr as [| y rest IH]; intros k p Hp Hfirst;
    [done |]. simpl.
  destruct p as [| p]; simpl in Hp.
  - injection Hp as ->. rewrite Nat.eqb_refl. lia.
  - destruct (Nat.eqb_spec y x) as [-> | _].
    + exfalso. apply (Hfirst 0); [lia | done].
    + rewrite (IH (k + 1)%Z p Hp); [lia |].
      intros j Hj. apply (Hfirst (S j)). lia.
Qed.

Lemma indexOf_NoDup (arr : list nat) (x p : nat) :
  NoDup arr → arr !! p = Some x → Js.indexOf arr x = Z.of_nat p.
Proof.
  intros Hnodup Hp. unfold Js.indexOf.
  rewrite (indexOfFrom_first 0 arr x p Hp); [lia |].
  intros j Hj Hjx.
  pose proof (NoDup_lookup arr j p x Hnodup Hjx Hp). lia.
Qed.

Section NavigationFacts.
Context {num : Type} {numOps : Js.Number num}.
Implicit Types (st : AppState num).

Lemma visible_NoDup st : NoDup (visible st).
Proof. apply ascending_NoDup, visibleIndices_ascending. Qed.

Lemma position_absent st :
  currentIndex st ∉ visible st → currentVisiblePosition st = (-1)%Z.
Proof. apply indexOfFrom_absent. Qed.

Lemma position_present st p :
  visible st !! p = Some (currentIndex st) →
  currentVisiblePosition st = Z.of_nat p.
Proof. apply indexOf_NoDup, visible_NoDup. Qed.

(** C9.  When the cursor is not among the visible indices its position
    is [-1] and both targets are absent.  When it sits at offset [p] of
    the visible indices, its position is [p]; the previous target is
    absent for [p = 0] and is the visible index at [p - 1] otherwise; the
    next target is the visible index at [p + 1] when there is one and is
    absent when [p] is the last offset.  [handlePrevious] and
    [handleNext] return the state as it is when their target is
    absent. *)
Theorem navigation_targets st :
  (currentIndex st ∉ visible st →
     currentVisiblePosition st = (-1)%Z ∧
     previousIndex st = None ∧ nextIndex st = None) ∧
  (∀ p, visible st !! p = Some (currentIndex st) →
     currentVisiblePosition st = Z.of_nat p ∧
     (p = 0 → previousIndex st = None) ∧
     (∀ p', p = S p' →
        previousIndex st = visible st !! p' ∧ is_Some (previousIndex st)) ∧
     (S p < length (visible st) →
        nextIndex st = visible st !! S p ∧ is_Some (nextIndex st)) ∧
     (S p = length (visible st) → nextIndex st = None)) ∧
  (previousIndex st = None → handlePrevious st = st) ∧
  (nextIndex st = None → handleNext st = st).
Proof.
  split; [| split; [| split]].
  - intros Habsent. split; [by apply position_absent |].
    unfold previousIndex, nextIndex. by rewrite position_absent.
  - intros p Hp. pose proof (position_present st p Hp) as Hpos.
    assert (Hlt : p < length (visible st)) by (by eapply lookup_lt_Some).
    split; [done |].
    unfold previousIndex, nextIndex. rewrite Hpos.
    split; [by intros -> |].
    split; [| split].
    + intros p' ->. rewrite (proj2 (Z.ltb_lt 0 (Z.of_nat (S p')))) by lia.
      replace (Z.to_nat (Z.of_nat (S p') - 1)) with p' by lia.
      split; [done |]. apply lookup_lt_is_Some. lia.
    + intros Hnext.
      rewrite (proj2 (Z.eqb_neq (Z.of_nat p) (-1))) by lia.
      rewrite (proj2 (Z.ltb_lt (Z.of_nat p)
                        (Z.of_nat (length (visible st)) - 1))) by lia.
      simpl. replace (Z.to_nat (Z.of_nat p + 1)) with (S p) by lia.
      split; [done |]. by apply lookup_lt_is_Some.
    + intros Hlast.
      rewrite (proj2 (Z.ltb_ge (Z.of_nat p)
                        (Z.of_nat (length (visible st)) - 1))) by lia.
      by rewrite andb_false_r.
  - intros Hnone. unfold handlePrevious. by rewrite Hnone.
  - intros Hnone. unfold handleNext. by rewrite Hnone.
Qed.

(** ** The mode button *)

Lemma wrongCount_zero (answers : Ledger) :
  length (List.filter isWrong answers) = 0
  ↔ ¬ ∃ a, Some a ∈ answers ∧ correct a = Some false.
Proof.
  induction answers as [| item rest IH]; simpl.
  - split; [| done]. intros _ (a & Ha & _). by apply elem_of_nil in Ha.
  - destruct (isWrong item) eqn:Hitem; simpl.
    + split; [done |]. intros Hno. exfalso. apply Hno.
      destruct item as [a |]; [| done]. exists a.
      split; [apply elem_of_cons; by left |].
      simpl in Hitem. by destruct (correct a) as [[|] |].
    + rewrite IH. split.
      * intros Hno (a & Ha & Hwrong). apply elem_of_cons in Ha as [<- | Ha].
        { simpl in Hitem. by rewrite Hwrong in Hitem. }
        apply Hno. eauto.
      * intros Hno (a & Ha & Hwrong). apply Hno. exists a.
        split; [apply elem_of_cons; by right | done].
Qed.

(** C2.  A click on the mode button in wrong mode always returns to the
    all mode; in all mode it switches to wrong mode when some ledger
    entry has [correct] equal to [false], and when none has the button is
    disabled and the click leaves the state, its mode included, as it
    is. *)
Theorem toggle_view_needs_wrong_entry st :
  (viewMode st = wrong → clickToggleView st = setViewMode all st) ∧
  (viewMode st = all →
   (∃ a, Some a ∈ userAnswers st ∧ correct a = Some false) →
   clickToggleView st = setViewMode wrong st) ∧
  (viewMode st = all →
   (¬ ∃ a, Some a ∈ userAnswers st ∧ correct a = Some false) →
   toggleViewDisabled st = true ∧ clickToggleView st = st).
Proof.
  unfold clickToggleView, toggleViewDisabled, handleToggleView. simpl.
  pose proof (wrongCount_zero (userAnswers st)) as Hzero.
  split; [| split].
  - intros Hmode. rewrite Hmode. by rewrite bool_decide_eq_false_2.
  - intros Hmode Hsome. rewrite Hmode.
    destruct (Nat.eqb_spec (length (List.filter isWrong (userAnswers st))) 0)
      as [Hlen | Hlen].
    + by apply Hzero in Hlen.
    + by rewrite andb_false_r.
  - intros Hmode Hnone. rewrite Hmode.
    apply Hzero in Hnone. rewrite Hnone. by rewrite bool_decide_eq_true_2.
Qed.

End NavigationFacts.

(** ** The cursor effect *)

Section CursorFacts.
Context {num : Type} {numOps : Js.Number num}.
Implicit Types (st : AppState num).

Lemma cursorEffect_cases st :
  cursorEffect st =
    match viewMode st, wrongQuestionIndices (userAnswers st) with
    | wrong, first :: rest =>
        if Js.arrayIncludes (first :: rest) (currentIndex st) then st
        else setCurrentIndex first st
    | _, _ => st
    end.
Proof.
  unfold cursorEffect. destruct (viewMode st); [done |].
  destruct (wrongQuestionIndices (userAnswers st)) as [| first rest];
    [done |].
  cbn [length Nat.eqb negb]. by destruct (Js.arrayIncludes _ _).
Qed.

Lemma cursorEffect_userAnswers st :
  userAnswers (cursorEffect st) = userAnswers st.
Proof.
  rewrite cursorEffect_cases. destruct (viewMode st); [done |].
  destruct (wrongQuestionIndices _); [done |].
  by destruct (Js.arrayIncludes _ _).
Qed.

Lemma cursorEffect_viewMode st : viewMode (cursorEffect st) = viewMode st.
Proof.
  rewrite cursorEffect_cases. destruct (viewMode st) eqn:Hmode; [done |].
  destruct (wrongQuestionIndices _); [done |].
  by destruct (Js.arrayIncludes _ _).
Qed.

Lemma cursorEffect_establishes st :
  viewMode st = wrong →
  wrongQuestionIndices (userAnswers st) ≠ [] →
  currentIndex (cursorEffect st) ∈ wrongQuestionIndices (userAnswers st).
Proof.
  intros Hmode Hwrongs. rewrite cursorEffect_cases, Hmode.
  destruct (wrongQuestionIndices (userAnswers st)) as [| first rest] eqn:Hw;
    [done |].
  destruct (Js.arrayIncludes (first :: rest) (currentIndex st)) eqn:Hin.
  - by apply arrayIncludes_elem_of.
  - simpl. apply elem_of_cons. by left.
Qed.

(** A state satisfying the invariant asks for no update. *)
Lemma cursorEffect_noop st :
  (viewMode st = wrong →
   wrongQuestionIndices (userAnswers st) ≠ [] →
   currentIndex st ∈ wrongQuestionIndices (userAnswers st)) →
  cursorEffect st = st.
Proof.
  intros Hinv. rewrite cursorEffect_cases.
  destruct (viewMode st); [done |].
  destruct (wrongQuestionIndices (userAnswers st)) as [| first rest];
    [done |].
  rewrite (proj2 (arrayIncludes_elem_of _ _)); [done |]. by apply Hinv.
Qed.

(** One run of the effect reaches a state on which it asks for no
    further update: the render loop stops there. *)
Lemma cursorEffect_settles st : settled (cursorEffect st).
Proof.
  unfold settled. apply cursorEffect_noop.
  rewrite cursorEffect_userAnswers, cursorEffect_viewMode.
  apply cursorEffect_establishes.
Qed.

(** The dependency array: with [viewMode], the ledger and [currentIndex]
    as in a settled state, running the effect changes nothing, so a
    render that skips it and one that runs it agree. *)
Lemma cursorEffect_same_deps st st' :
  settled st →
  viewMode st' = viewMode st →
  userAnswers st' = userAnswers st →
  currentIndex st' = currentIndex st →
  cursorEffect st' = st'.
Proof.
  unfold settled. rewrite !cursorEffect_cases.
  intros Hst -> -> Hcur.
  destruct (viewMode st); [done |].
  destruct (wrongQuestionIndices (userAnswers st)) as [| first rest];
    [done |].
  rewrite Hcur.
  destruct (Js.arrayIncludes (first :: rest) (currentIndex st)) eqn:Hin;
    [done |].
  exfalso. apply (f_equal currentIndex) in Hst. simpl in Hst.
  rewrite <- Hst in Hin. simpl in Hin. by rewrite Nat.eqb_refl in Hin.
Qed.

(** C10.  Every reachable state is settled and, when its mode is wrong
    and some entry is wrong, has its cursor among the wrong indices; and
    whatever the event, if the handler leaves the mode at wrong with a
    non-empty list of wrong indices, the effect that follows keeps a
    cursor that is among them and moves any other cursor to the first of
    them, touching nothing else. *)
Theorem wrong_view_cursor_invariant st :
  reachable st →
  settled st ∧
  (viewMode st = wrong →
   wrongQuestionIndices (userAnswers st) ≠ [] →
   currentIndex st ∈ wrongQuestionIndices (userAnswers st)) ∧
  (∀ (a : Action num) first rest,
     viewMode (handle a st) = wrong →
     wrongQuestionIndices (userAnswers (handle a st)) = first :: rest →
     (currentIndex (handle a st) ∈ first :: rest →
      step a st = handle a st) ∧
     (currentIndex (handle a st) ∉ first :: rest →
      step a st = setCurrentIndex first (handle a st)) ∧
     currentIndex (step a st)
       ∈ wrongQuestionIndices (userAnswers (step a st))).
Proof.
  intros Hreach.
  assert (Hshape : ∃ st0, st = cursorEffect st0).
  { destruct Hreach as [| a st1 _]; eauto. }
  destruct Hshape as [st0 ->].
  split; [apply cursorEffect_settles |].
  split.
  - rewrite cursorEffect_userAnswers, cursorEffect_viewMode.
    apply cursorEffect_establishes.
  - intros a first rest Hmode Hwrongs. unfold step.
    set (mid := handle a (cursorEffect st0)) in *.
    split; [| split].
    + intros Hin. rewrite cursorEffect_cases, Hmode, Hwrongs.
      by rewrite (proj2 (arrayIncludes_elem_of _ _)).
    + intros Hout. rewrite cursorEffect_cases, Hmode, Hwrongs.
      destruct (Js.arrayIncludes (first :: rest) (currentIndex mid)) eqn:Hin;
        [| done].
      by apply arrayIncludes_elem_of in Hin.
    + rewrite cursorEffect_userAnswers.
      apply cursorEffect_establishes; [done |]. by rewrite Hwrongs.
Qed.

End CursorFacts.

(** * Concrete runs *)

Lemma sampleAnswered_reachable : reachable sampleAnswered.
Proof. repeat constructor. Qed.

(** Scores [1, 2, null]; question 1 answered with its answer label. *)
Example summary_after_correct_answer :
  summary sampleCatalog
    (userAnswers (step Submit (step (Select "A") sampleFresh)))
  = {| answeredCount := 1; correctCount := 1; wrongCount := 0;
       totalScore := 1%Z; fullScore := 3%Z |}.
Proof. reflexivity. Qed.

(** Question 2 answered B against the answer label C. *)
Example wrong_view_after_wrong_answer :
  userAnswers sampleAnswered !! 1
  = Some (Some {| choice := Some "B"%string; correct := Some false |}) ∧
  visibleIndices sampleCatalog (userAnswers sampleAnswered) wrong EmptyString
  = [1].
Proof. split; reflexivity. Qed.

(** A query found only in the option texts of question 3. *)
Example search_in_option_text :
  visibleIndices sampleCatalog (userAnswers sampleAnswered) all "80" = [2].
Proof. reflexivity. Qed.

(** Resetting the only wrong question in wrong mode empties the wrong
    set and leaves the cursor where it is. *)
Example reset_in_wrong_view :
  currentIndex (step ResetQuestion (step ToggleView sampleAnswered)) = 1 ∧
  wrongQuestionIndices
    (userAnswers (step ResetQuestion (step ToggleView sampleAnswered))) = [].
Proof. split; reflexivity. Qed.

Lemma loadAnswersFromStorage_migrates_witness :
  length (loadAnswersFromStorage
            (Parsed [Some {| choice := Some "A"%string; correct := Some true |}]) 3)
  = 3.
Proof.
  exact (proj1 (loadAnswersFromStorage_migrates
    (Parsed [Some {| choice := Some "A"%string; correct := Some true |}]) 3)).
Defined.

Lemma ledger_mutation_touches_one_entry_witness :
  currentIndex sampleAnswered < length (userAnswers sampleAnswered) ∧
  userAnswers (handleSelect "A" sampleAnswered) !! 0
  = Some (Some {| choice := Some "A"%string; correct := None |}).
Proof.
  assert (Hin : currentIndex sampleAnswered
                < length (userAnswers sampleAnswered)) by (vm_compute; lia).
  split; [exact Hin |].
  exact (proj1 (proj2
    (ledger_mutation_touches_one_entry sampleAnswered "A" Hin))).
Defined.

Lemma submit_without_selection_witness :
  handleSubmit sampleAnswered
  = setStatusMessage (Some noSelectionHint) sampleAnswered.
Proof.
  refine (proj1 (proj1 (proj2
    (submit_without_selection sampleAnswered
       (mkQuestion 1 "Which protocol is stateless" (Some 1%Z)
          [mkOption "A" "HTTP"; mkOption "B" "FTP"] "A")
       blank _ _)) _)); reflexivity.
Defined.

(** The claim of C4 fails here: the slot holds a choice (the empty label),
    and [handleSubmit] still takes the no-selection path. *)
Lemma submit_empty_label_rejected :
  questions emptyLabelState !! currentIndex emptyLabelState
    = Some (mkQuestion 1 "Pick one" (Some 1%Z) [mkOption EmptyString "x"] "A") ∧
  (answerAt (userAnswers emptyLabelState) (currentIndex emptyLabelState)
     ≫= choice) = Some EmptyString ∧
  submitPath emptyLabelState = NothingSelected ∧
  statusMessage (handleSubmit emptyLabelState) = Some noSelectionHint.
Proof. by vm_compute. Qed.

Lemma submit_grades_selection_witness :
  userAnswers (handleSubmit (handleSelect "A" sampleAnswered))
  = [Some {| choice := Some "A"%string; correct := Some true |};
     Some {| choice := Some "B"%string; correct := Some false |};
     Some blank] ∧
  handleSubmit (handleSubmit (handleSelect "A" sampleAnswered))
  = handleSubmit (handleSelect "A" sampleAnswered).
Proof.
  pose proof (submit_grades_selection (handleSelect "A" sampleAnswered)
    (mkQuestion 1 "Which protocol is stateless" (Some 1%Z)
       [mkOption "A" "HTTP"; mkOption "B" "FTP"] "A")
    {| choice := Some "A"%string; correct := None |} "A"
    eq_refl eq_refl eq_refl ltac:(discriminate)) as (Hledger & _ & Hagain).
  split; [exact Hledger | exact Hagain].
Defined.

(** The claim of C5 fails here: the choice is not [null], and
    [handleSubmit] leaves [correct] at [null] instead of grading it. *)
Lemma submit_empty_label_not_graded :
  (answerAt (userAnswers emptyLabelState) (currentIndex emptyLabelState)
     ≫= choice) = Some EmptyString ∧
  answerAt (userAnswers (handleSubmit emptyLabelState))
    (currentIndex emptyLabelState)
  = Some {| choice := Some EmptyString; correct := None |}.
Proof. by vm_compute. Qed.

Lemma summary_consistent_witness :
  Js.le (totalScore (summary sampleCatalog
                       (userAnswers (handleSubmit
                          (handleSelect "A" sampleAnswered)))))
        (fullScore (summary sampleCatalog
                      (userAnswers (handleSubmit
                         (handleSelect "A" sampleAnswered))))).
Proof.
  apply (summary_consistent (numOrder := Z_NumberOrder) sampleCatalog).
  intros q s Hq Hs. simpl.
  repeat (apply elem_of_cons in Hq as [-> | Hq]; [simpl in Hs; simplify_eq; lia |]).
  by apply elem_of_nil in Hq.
Defined.

Lemma searchResultIndices_matches_query_witness :
  1 ∈ searchResultIndices sampleCatalog "Session ".
Proof.
  apply (searchResultIndices_matches_query sampleCatalog "Session " 1);
    [discriminate |].
  eexists. split; [reflexivity |]. right.
  by exists "link "%string, "network"%string.
Defined.

(** The claim of C1 fails here: the query [" http"] does not trim to the
    empty string and its lowercase trimmed form occurs in the option
    texts of question 0, which the search does not return. *)
Lemma search_untrimmed_query_misses :
  Js.trim " http" ≠ EmptyString ∧
  sampleCatalog !! 0
    = Some (mkQuestion 1 "Which protocol is stateless" (Some 1%Z)
              [mkOption "A" "HTTP"; mkOption "B" "FTP"] "A") ∧
  occursIn (Js.toLowerCase (Js.trim " http"))
    (Js.join " " (map (fun opt => Js.toLowerCase (opt_text opt))
                    [mkOption "A" "HTTP"; mkOption "B" "FTP"])) ∧
  0 ∉ searchResultIndices sampleCatalog " http".
Proof.
  split; [discriminate |]. split; [reflexivity |]. split.
  - by exists EmptyString, " ftp"%string.
  - vm_compute. apply not_elem_of_nil.
Qed.

Lemma wrong_view_cursor_invariant_witness :
  currentIndex (step ToggleView sampleAnswered) = 1 ∧
  currentIndex (step ToggleView sampleAnswered)
    ∈ wrongQuestionIndices (userAnswers (step ToggleView sampleAnswered)).
Proof.
  split; [reflexivity |].
  refine (proj1 (proj2 (wrong_view_cursor_invariant
    (step ToggleView sampleAnswered) _)) _ _).
  - repeat constructor.
  - reflexivity.
  - discriminate.
Defined.

Lemma toggle_view_needs_wrong_entry_witness :
  clickToggleView sampleFresh = sampleFresh ∧
  clickToggleView sampleAnswered = setViewMode wrong sampleAnswered.
Proof.
  split.
  - refine (proj2 (proj2 (proj2
      (toggle_view_needs_wrong_entry sampleFresh)) eq_refl _)).
    intros (a & Ha & Hwrong).
    repeat (apply elem_of_cons in Ha as [Ha | Ha];
            [injection Ha as ->; discriminate |]).
    by apply elem_of_nil in Ha.
  - refine (proj1 (proj2
      (toggle_view_needs_wrong_entry sampleAnswered)) eq_refl _).
    exists {| choice := Some "B"%string; correct := Some false |}.
    split; [| reflexivity].
    apply elem_of_cons. right. apply elem_of_cons. by left.
Defined.

Lemma visibleIndices_wrong_and_ascending_witness :
  ∃ a, userAnswers sampleAnswered !! 1 = Some (Some a)
       ∧ correct a = Some false.
Proof.
  refine (proj1 (visibleIndices_wrong_and_ascending sampleCatalog
    (userAnswers sampleAnswered) wrong EmptyString) 1 _).
  apply elem_of_cons. by left.
Defined.

Lemma navigation_targets_witness :
  previousIndex sampleAnswered = None ∧
  nextIndex sampleAnswered = Some 1 ∧
  handlePrevious sampleAnswered = sampleAnswered.
Proof.
  destruct (navigation_targets sampleAnswered) as (_ & Hat & Hprev & _).
  destruct (Hat 0 eq_refl) as (_ & Hfirst & _ & Hnext & _).
  split; [by apply Hfirst |].
  split; [| by apply Hprev, Hfirst].
  apply Hnext. vm_compute. lia.
Defined.

(** * Further properties of the component *)

(** ** Replacing one slot *)

Section InsertFacts.
Context {A : Type}.
Implicit Types (p : A → bool) (l : list A) (x y : A).

Lemma count_insert p l i x y :
  l !! i = Some x →
  length (List.filter p (<[i := y]> l)) + (if p x then 1 else 0)
  = length (List.filter p l) + (if p y then 1 else 0).
Proof.
  revert i. induction l as [| z l IH]; intros i Hi; [done |].
  destruct i as [| i]; simpl in *.
  - injection Hi as ->. destruct (p x), (p y); simpl; lia.
  - specialize (IH i Hi). destruct (p z); simpl; lia.
Qed.

Lemma positionsFrom_insert_same p k l i x y :
  l !! i = Some x → p y = p x →
  Js.positionsFrom p k (<[i := y]> l) = Js.positionsFrom p k l.
Proof.
  revert i k. induction l as [| z l IH]; intros i k Hi Hp; [done |].
  destruct i as [| i]; simpl in *.
  - injection Hi as ->. by rewrite Hp.
  - by rewrite (IH i (S k) Hi Hp).
Qed.

Lemma positionsFrom_insert_ne p k l i x y j :
  l !! i = Some x → j ≠ k + i →
  j ∈ Js.positionsFrom p k (<[i := y]> l) ↔ j ∈ Js.positionsFrom p k l.
Proof.
  intros Hi Hj. rewrite !elem_of_positionsFrom.
  split; intros (Hle & z & Hz & Hpz); (split; [done |]); exists z;
    (split; [| done]).
  - rewrite list_lookup_insert_ne in Hz by lia. done.
  - rewrite list_lookup_insert_ne by lia. done.
Qed.

Lemma reduceFrom_insert_same {B : Type} (f : B → A → nat → B) k l i x y acc :
  l !! i = Some x →
  (∀ acc' index, f acc' y index = f acc' x index) →
  Js.reduceFrom f k (<[i := y]> l) acc = Js.reduceFrom f k l acc.
Proof.
  revert i k acc. induction l as [| z l IH]; intros i k acc Hi Hf; [done |].
  destruct i as [| i]; simpl in *.
  - injection Hi as ->. by rewrite Hf.
  - by apply IH.
Qed.
End InsertFacts.

Lemma filter_includes_self (l : list nat) :
  List.filter (Js.arrayIncludes l) l = l.
Proof.
  assert (Hgen : ∀ k, (∀ x, x ∈ k → x ∈ l)
                      → List.filter (Js.arrayIncludes l) k = k).
  { induction k as [| x k IH]; intros Hsub; [done |]. simpl.
    rewrite (proj2 (arrayIncludes_elem_of l x))
      by (apply Hsub, elem_of_cons; by left).
    f_equal. apply IH. intros y Hy. apply Hsub, elem_of_cons. by right. }
  by apply Hgen.
Qed.

Lemma elem_of_bool_filter (keep : nat → bool) (l : list nat) (x : nat) :
  x ∈ List.filter keep l ↔ x ∈ l ∧ keep x = true.
Proof. rewrite !list_elem_of_In. apply filter_In. Qed.

(** ** Handlers and the values derived from the ledger *)

Section HandlerFacts.
Context {num : Type} {numOps : Js.Number num}.
Implicit Types (st : AppState num) (a : UserAnswer) (q : QuestionItem num).

Lemma wrongCount_wrongQuestionIndices (qs : list (QuestionItem num))
    (answers : Ledger) :
  wrongCount (summary qs answers) = length (wrongQuestionIndices answers).
Proof.
  simpl. rewrite wrongQuestionIndices_positions.
  symmetry. apply length_positionsFrom.
Qed.

Lemma visibleIndices_of_wrongs (qs : list (QuestionItem num))
    (answers answers' : Ledger) mode (query0 : string) :
  wrongQuestionIndices answers' = wrongQuestionIndices answers →
  visibleIndices qs answers' mode query0 = visibleIndices qs answers mode query0.
Proof. intros Hw. unfold visibleIndices. by rewrite Hw. Qed.

(** X1.  Choosing an option at an in-bounds cursor changes neither the
    summary nor the wrong indices nor, in any mode and for any query,
    the visible indices. *)
Theorem select_keeps_summary_and_views st (c : string) :
  currentIndex st < length (userAnswers st) →
  summary (questions st) (userAnswers (handleSelect c st))
    = summary (questions st) (userAnswers st) ∧
  wrongQuestionIndices (userAnswers (handleSelect c st))
    = wrongQuestionIndices (userAnswers st) ∧
  ∀ mode (query0 : string),
    visibleIndices (questions st) (userAnswers (handleSelect c st))
      mode query0
    = visibleIndices (questions st) (userAnswers st) mode query0.
Proof.
  intros Hi.
  destruct (lookup_lt_is_Some_2 _ _ Hi) as [item Hitem].
  set (kept := {| choice := Some c;
                  correct := answerAt (userAnswers st) (currentIndex st)
                             ≫= correct |}).
  assert (Hnew : userAnswers (handleSelect c st)
                 = <[currentIndex st := Some kept]> (userAnswers st)).
  { simpl. by rewrite assign_in_bounds. }
  assert (Hans : isAnswered (Some kept) = isAnswered item).
  { unfold kept, answerAt. rewrite Hitem. by destruct item. }
  assert (Hcor : isCorrect (Some kept) = isCorrect item).
  { unfold kept, answerAt. rewrite Hitem. by destruct item. }
  assert (Hwr : isWrong (Some kept) = isWrong item).
  { unfold kept, answerAt. rewrite Hitem. by destruct item. }
  assert (Hwrongs : wrongQuestionIndices (userAnswers (handleSelect c st))
                    = wrongQuestionIndices (userAnswers st)).
  { rewrite Hnew, !wrongQuestionIndices_positions.
    by apply positionsFrom_insert_same with item. }
  split; [| split; [done |]].
  - rewrite Hnew. unfold summary. f_equal.
    + pose proof (count_insert isAnswered _ _ _ (Some kept) Hitem).
      rewrite Hans in *. destruct (isAnswered item); lia.
    + pose proof (count_insert isCorrect _ _ _ (Some kept) Hitem).
      rewrite Hcor in *. destruct (isCorrect item); lia.
    + pose proof (count_insert isWrong _ _ _ (Some kept) Hitem).
      rewrite Hwr in *. destruct (isWrong item); lia.
    + unfold Js.reduce. apply reduceFrom_insert_same with item; [done |].
      intros acc' index. by rewrite Hcor.
  - intros mode query0. by apply visibleIndices_of_wrongs.
Qed.

(** X2.  Submitting at an in-bounds cursor whose slot holds a non-empty
    choice and no grade yet counts one more answered question; it counts
    one more correct one and no more wrong ones when the choice is the
    answer label, and the other way round when it is not; the cursor
    joins the wrong indices exactly in the latter case, and no other
    index joins or leaves them. *)
Theorem submit_updates_counts st q a (c : string) :
  questions st !! currentIndex st = Some q →
  userAnswers st !! currentIndex st = Some (Some a) →
  choice a = Some c → c ≠ EmptyString → correct a = None →
  let before := summary (questions st) (userAnswers st) in
  let after := summary (questions st) (userAnswers (handleSubmit st)) in
  answeredCount after = S (answeredCount before) ∧
  (c = ans_label (answer q) →
     correctCount after = S (correctCount before) ∧
     wrongCount after = wrongCount before) ∧
  (c ≠ ans_label (answer q) →
     correctCount after = correctCount before ∧
     wrongCount after = S (wrongCount before)) ∧
  (currentIndex st ∈ wrongQuestionIndices (userAnswers (handleSubmit st))
   ↔ c ≠ ans_label (answer q)) ∧
  ∀ j, j ≠ currentIndex st →
    (j ∈ wrongQuestionIndices (userAnswers (handleSubmit st))
     ↔ j ∈ wrongQuestionIndices (userAnswers st)).
Proof.
  intros Hq Ha Hc Hne Hungraded before after.
  assert (Hi : currentIndex st < length (userAnswers st))
    by (by eapply lookup_lt_Some).
  pose proof (submitPath_in_bounds st q a Hq Ha) as Hpath.
  rewrite Hc, (proj2 (truthy_nonempty c) Hne) in Hpath.
  set (graded := {| choice := Some c;
                    correct := Some (String.eqb c (ans_label (answer q))) |}).
  assert (Hnew : userAnswers (handleSubmit st)
                 = <[currentIndex st := Some graded]> (userAnswers st)).
  { unfold handleSubmit. rewrite Hpath. simpl. by apply assign_in_bounds. }
  pose proof (count_insert isAnswered _ _ _ (Some graded) Ha) as Hans.
  pose proof (count_insert isCorrect _ _ _ (Some graded) Ha) as Hcor.
  pose proof (count_insert isWrong _ _ _ (Some graded) Ha) as Hwr.
  simpl in Hans, Hcor, Hwr. rewrite Hungraded in Hans, Hcor, Hwr.
  unfold before, after. rewrite Hnew. simpl.
  split; [lia |]. split; [| split; [| split]].
  - intros Heq. apply String.eqb_eq in Heq. rewrite Heq in Hcor, Hwr.
    simpl in Hwr. lia.
  - intros Hneq. apply String.eqb_neq in Hneq. rewrite Hneq in Hcor, Hwr.
    simpl in Hwr. lia.
  - rewrite elem_of_wrongQuestionIndices.
    rewrite list_lookup_insert_eq by done. split.
    + intros (a' & Ha' & Hwrong). injection Ha' as <-. simpl in Hwrong.
      injection Hwrong as Hwrong. by apply String.eqb_neq.
    + intros Hneq. exists graded. split; [done |]. simpl.
      f_equal. by apply String.eqb_neq.
  - intros j Hj. rewrite !wrongQuestionIndices_positions.
    apply positionsFrom_insert_ne with (Some a); [done | lia].
Qed.

End HandlerFacts.

Section MoreHandlerFacts.
Context {num : Type} {numOps : Js.Number num}.
Implicit Types (st : AppState num) (a : UserAnswer) (q : QuestionItem num)
  (qs : list (QuestionItem num)) (answers : Ledger).



Lemma blank_ledger_counts (p : option UserAnswer → bool) (n k : nat) :
  p (Some blank) = false →
  List.filter p (replicate n (Some blank)) = [] ∧
  Js.positionsFrom p k (replicate n (Some blank)) = [].
Proof.
  intros Hp. revert k. induction n as [| n IH]; intros k; simpl; [done |].
  rewrite Hp. split; [apply (IH k) | apply IH].
Qed.

Lemma blank_ledger_total qs (n k : nat) (acc : num) :
  Js.reduceFrom (fun acc ans index =>
                   if isCorrect ans then Js.add acc (scoreAt qs index)
                   else acc) k (replicate n (Some blank)) acc
  = acc.
Proof. revert k. induction n as [| n IH]; intros k; simpl; [done | apply IH]. Qed.

(** X4.  Clearing the records, once confirmed and with the stored entry
    removed without error, leaves one blank record per question of the
    catalog: nothing counts as answered, correct or wrong, the total
    score is zero, no index is wrong, and catalog, cursor, mode and
    query are untouched.  Declined, or with the removal failing, it
    changes nothing. *)
Theorem clear_records_resets_ledger st (confirmed removeThrows : bool) :
  let cleared := handleClearRecords true false st in
  userAnswers cleared = replicate (length (questions st)) (Some blank) ∧
  answeredCount (summary (questions st) (userAnswers cleared)) = 0 ∧
  correctCount (summary (questions st) (userAnswers cleared)) = 0 ∧
  wrongCount (summary (questions st) (userAnswers cleared)) = 0 ∧
  totalScore (summary (questions st) (userAnswers cleared)) = Js.zero ∧
  wrongQuestionIndices (userAnswers cleared) = [] ∧
  (questions cleared, currentIndex cleared, viewMode cleared,
   searchQuery cleared)
  = (questions st, currentIndex st, viewMode st, searchQuery st) ∧
  (confirmed = false ∨ removeThrows = true →
   handleClearRecords confirmed removeThrows st = st).
Proof.
  intros cleared. unfold cleared. simpl. unfold getInitialAnswers.
  split; [done |].
  rewrite !(proj1 (blank_ledger_counts _ _ 0 eq_refl)).
  unfold Js.reduce. rewrite blank_ledger_total.
  rewrite wrongQuestionIndices_positions.
  rewrite (proj2 (blank_ledger_counts isWrong _ 0 eq_refl)).
  repeat (split; [done |]).
  intros [-> | ->]; unfold handleClearRecords; [done |].
  by rewrite andb_false_r.
Qed.

(** X5.  The count of wrong answers in the summary is the number of
    wrong indices, so the mode button is disabled exactly in all mode
    with no wrong index, and a click that leads from all mode into wrong
    mode finds at least one wrong index there. *)
Theorem toggle_button_agrees_with_wrong_view st :
  wrongCount (summary (questions st) (userAnswers st))
    = length (wrongQuestionIndices (userAnswers st)) ∧
  (toggleViewDisabled st = true
   ↔ viewMode st = all ∧ wrongQuestionIndices (userAnswers st) = []) ∧
  (viewMode st = all → viewMode (clickToggleView st) = wrong →
   wrongQuestionIndices (userAnswers (clickToggleView st)) ≠ []).
Proof.
  pose proof (wrongCount_wrongQuestionIndices (questions st) (userAnswers st))
    as Hcount.
  assert (Hdisabled : toggleViewDisabled st = true
    ↔ viewMode st = all ∧ wrongQuestionIndices (userAnswers st) = []).
  { unfold toggleViewDisabled. rewrite Hcount.
    rewrite andb_true_iff, bool_decide_eq_true, Nat.eqb_eq.
    by rewrite length_zero_iff_nil. }
  split; [done |]. split; [done |].
  intros Hmode Hafter. unfold clickToggleView in *.
  destruct (toggleViewDisabled st) eqn:Hdis.
  - congruence.
  - unfold handleToggleView. rewrite Hmode. simpl.
    intros Hempty. by pose proof (proj2 Hdisabled (conj Hmode Hempty)).
Qed.

Lemma searchResultIndices_blank qs (query0 : string) :
  Js.trim query0 = EmptyString →
  searchResultIndices qs query0 = seq 0 (length qs).
Proof. intros Hblank. unfold searchResultIndices. by rewrite Hblank. Qed.

Lemma searchResultIndices_bound qs (query0 : string) i :
  i ∈ searchResultIndices qs query0 → i < length qs.
Proof.
  destruct (Js.truthy (Js.trim query0)) eqn:Hquery.
  - rewrite searchResultIndices_active by done.
    rewrite elem_of_positionsFrom.
    intros (_ & q & Hq & _). apply lookup_lt_Some in Hq. lia.
  - unfold searchResultIndices. rewrite Hquery. simpl. unfold Js.indices.
    rewrite elem_of_seq. lia.
Qed.

Lemma wrongQuestionIndices_bound answers i :
  i ∈ wrongQuestionIndices answers → i < length answers.
Proof.
  rewrite elem_of_wrongQuestionIndices. intros (a & Ha & _).
  by eapply lookup_lt_Some.
Qed.

Lemma visibleIndices_all qs answers (query0 : string) :
  visibleIndices qs answers all query0 = searchResultIndices qs query0.
Proof.
  unfold visibleIndices. destruct (Js.truthy (Js.trim query0)) eqn:Hquery.
  - apply filter_includes_self.
  - unfold searchResultIndices. by rewrite Hquery.
Qed.

Lemma elem_of_visibleIndices_wrong qs answers (query0 : string) i :
  i ∈ visibleIndices qs answers wrong query0
  ↔ i ∈ wrongQuestionIndices answers
    ∧ (Js.trim query0 = EmptyString ∨ i ∈ searchResultIndices qs query0).
Proof.
  unfold visibleIndices. destruct (Js.trim query0) as [| ch rest] eqn:Hquery;
    simpl.
  - split; [intros Hi; split; [done | by left] | by intros [Hi _]].
  - rewrite elem_of_bool_filter, arrayIncludes_elem_of. split.
    + intros [Hw Hs]. split; [done | by right].
    + intros [Hw [Hblank | Hs]]; [done | by split].
Qed.

Lemma visibleIndices_bound qs answers mode (query0 : string) i :
  i ∈ visibleIndices qs answers mode query0 →
  match mode with
  | all => i < length qs
  | wrong => i < length answers
  end.
Proof.
  destruct mode.
  - rewrite visibleIndices_all. apply searchResultIndices_bound.
  - rewrite elem_of_visibleIndices_wrong. intros [Hw _].
    by apply wrongQuestionIndices_bound.
Qed.

(** X6.  In all mode the visible indices are the search indices, which
    for a query that trims to nothing are all catalog positions in
    order; in wrong mode an index is visible exactly when it is a wrong
    index and, unless the query trims to nothing, a search index too. *)
Theorem visibleIndices_by_mode qs answers (query0 : string) :
  visibleIndices qs answers all query0 = searchResultIndices qs query0 ∧
  (Js.trim query0 = EmptyString →
   visibleIndices qs answers all query0 = seq 0 (length qs) ∧
   visibleIndices qs answers wrong query0 = wrongQuestionIndices answers) ∧
  ∀ i, i ∈ visibleIndices qs answers wrong query0
       ↔ i ∈ wrongQuestionIndices answers
         ∧ (Js.trim query0 = EmptyString
            ∨ i ∈ searchResultIndices qs query0).
Proof.
  split; [apply visibleIndices_all |]. split.
  - intros Hblank. split.
    + rewrite visibleIndices_all. by apply searchResultIndices_blank.
    + unfold visibleIndices. by rewrite Hblank.
  - intros i. apply elem_of_visibleIndices_wrong.
Qed.

(** X7.  A visible index is a position of the catalog in all mode and a
    position of the ledger in wrong mode; with a ledger as long as the
    catalog, every visible index has both a question and a ledger
    slot. *)
Theorem visibleIndices_in_bounds qs answers mode (query0 : string) i :
  i ∈ visibleIndices qs answers mode query0 →
  (mode = all → i < length qs) ∧
  (mode = wrong → i < length answers) ∧
  (length answers = length qs →
   is_Some (qs !! i) ∧ is_Some (answers !! i)).
Proof.
  intros Hi. pose proof (visibleIndices_bound _ _ _ _ _ Hi) as Hbound.
  split; [by intros -> |]. split; [by intros -> |].
  intros Hlen. split; apply lookup_lt_is_Some; destruct mode; lia.
Qed.

(** X8.  With a query that does not trim to nothing, there are at most
    as many visible indices as search indices, in either mode. *)
Theorem visible_count_within_search_count qs answers mode (query0 : string) :
  Js.trim query0 ≠ EmptyString →
  length (visibleIndices qs answers mode query0)
  ≤ length (searchResultIndices qs query0).
Proof.
  intros Hquery. apply submseteq_length, NoDup_submseteq.
  - apply ascending_NoDup, visibleIndices_ascending.
  - intros i. destruct mode.
    + by rewrite visibleIndices_all.
    + rewrite elem_of_visibleIndices_wrong. intros [_ [Hblank | Hs]]; done.
Qed.

End MoreHandlerFacts.

(** ** Narrowing a search *)

Lemma string_app_assoc (a b c : string) :
  String.append (String.append a b) c = String.append a (String.append b c).
Proof. induction a as [| ch a IH]; simpl; [done | by rewrite IH]. Qed.

Lemma occursIn_trans (a b s : string) : occursIn a b → occursIn b s → occursIn a s.
Proof.
  intros (p1 & s1 & ->) (p2 & s2 & ->).
  exists (String.append p2 p1), (String.append s1 s2).
  by rewrite !string_app_assoc.
Qed.

Lemma toLowerCase_app (a b : string) :
  Js.toLowerCase (String.append a b)
  = String.append (Js.toLowerCase a) (Js.toLowerCase b).
Proof. induction a as [| ch a IH]; simpl; [done | by rewrite IH]. Qed.

Lemma toLowerCase_occursIn (a b : string) :
  occursIn a b → occursIn (Js.toLowerCase a) (Js.toLowerCase b).
Proof.
  intros (pre & post & ->). exists (Js.toLowerCase pre), (Js.toLowerCase post).
  by rewrite !toLowerCase_app.
Qed.

Section SearchFacts.
Context {num : Type}.
Implicit Types (qs : list (QuestionItem num)).

(** X9.  When the lowercase form of a query occurs in the lowercase
    form of a second query that does not trim to nothing (the second
    extends the first, whatever the case of the letters), every search
    index of the second is a search index of the first. *)
Theorem search_narrows_with_longer_query qs (shorter longer : string) i :
  Js.trim longer ≠ EmptyString →
  occursIn (Js.toLowerCase shorter) (Js.toLowerCase longer) →
  i ∈ searchResultIndices qs longer →
  i ∈ searchResultIndices qs shorter.
Proof.
  intros Hlonger Hocc Hi.
  destruct (Js.truthy (Js.trim shorter)) eqn:Hshorter.
  - assert (Hl : Js.truthy (Js.trim longer) = true)
      by (by apply truthy_nonempty).
    rewrite searchResultIndices_active in Hi |- * by done.
    apply elem_of_positionsFrom in Hi as (Hle & q & Hq & Hmatch).
    apply elem_of_positionsFrom. split; [done |]. exists q.
    split; [done |].
    apply orb_true_iff in Hmatch. apply orb_true_iff.
    destruct Hmatch as [Hm | Hm]; [left | right];
      apply includes_spec; apply includes_spec in Hm;
      by apply occursIn_trans with (Js.toLowerCase longer).
  - pose proof (searchResultIndices_bound _ _ _ Hi) as Hbound.
    unfold searchResultIndices. rewrite Hshorter. simpl. unfold Js.indices.
    apply elem_of_seq. lia.
Qed.

End SearchFacts.

(** ** Moving through the visible indices *)

Lemma indexOfFrom_found (k : Z) (arr : list nat) (x : nat) :
  (0 ≤ k)%Z →
  Js.indexOfFrom k arr x = (-1)%Z
  ∨ ∃ p, arr !! p = Some x ∧ Js.indexOfFrom k arr x = (k + Z.of_nat p)%Z.
Proof.
  revert k. induction arr as [| y rest IH]; intros k Hk; simpl; [by left |].
  destruct (Nat.eqb_spec y x) as [-> | Hne].
  - right. exists 0. split; [done | lia].
  - destruct (IH (k + 1)%Z) as [Hnone | (p & Hp & Hfound)]; [lia | by left |].
    right. exists (S p). split; [done | lia].
Qed.

Lemma ascending_lookup_lt (l : list nat) (a b x y : nat) :
  StronglySorted lt l → l !! a = Some x → l !! b = Some y → a < b → x < y.
Proof.
  intros Hsorted. revert a b.
  induction Hsorted as [| z l Hsorted IH Hall]; intros a b Ha Hb Hab; [done |].
  destruct b as [| b]; [lia |]. destruct a as [| a]; simpl in *.
  - injection Ha as ->. rewrite Forall_forall in Hall.
    apply Hall. by eapply list_elem_of_lookup_2.
  - apply (IH a b); [done | done | lia].
Qed.

Section MoveFacts.
Context {num : Type} {numOps : Js.Number num}.
Implicit Types (st : AppState num).

Lemma visible_ascending st : StronglySorted lt (visible st).
Proof. apply visibleIndices_ascending. Qed.

Lemma nextIndex_at st p :
  visible st !! p = Some (currentIndex st) →
  nextIndex st = visible st !! S p.
Proof.
  intros Hp. unfold nextIndex. rewrite (position_present st p Hp).
  assert (Hlt : p < length (visible st)) by (by eapply lookup_lt_Some).
  rewrite (proj2 (Z.eqb_neq (Z.of_nat p) (-1))) by lia. simpl.
  destruct (Z.ltb_spec (Z.of_nat p) (Z.of_nat (length (visible st)) - 1)).
  - f_equal. lia.
  - symmetry. apply lookup_ge_None. lia.
Qed.

Lemma previousIndex_at st p :
  visible st !! S p = Some (currentIndex st) →
  previousIndex st = visible st !! p.
Proof.
  intros Hp. unfold previousIndex. rewrite (position_present st (S p) Hp).
  rewrite (proj2 (Z.ltb_lt 0 (Z.of_nat (S p)))) by lia.
  f_equal. lia.
Qed.

Lemma position_found st :
  currentVisiblePosition st = (-1)%Z
  ∨ ∃ p, visible st !! p = Some (currentIndex st)
         ∧ currentVisiblePosition st = Z.of_nat p.
Proof.
  unfold currentVisiblePosition, Js.indexOf.
  destruct (indexOfFrom_found 0 (visible st) (currentIndex st))
    as [Hnone | (p & Hp & Hfound)]; [lia | by left |].
  right. exists p. split; [done | lia].
Qed.

Lemma nextIndex_Some st t :
  nextIndex st = Some t →
  ∃ p, visible st !! p = Some (currentIndex st) ∧ visible st !! S p = Some t.
Proof.
  intros Hnext. destruct (position_found st) as [Hnone | (p & Hp & Hpos)].
  - unfold nextIndex in Hnext. by rewrite Hnone in Hnext.
  - exists p. split; [done |]. by rewrite <- (nextIndex_at st p Hp).
Qed.

Lemma previousIndex_Some st t :
  previousIndex st = Some t →
  ∃ p, visible st !! S p = Some (currentIndex st) ∧ visible st !! p = Some t.
Proof.
  intros Hprev. destruct (position_found st) as [Hnone | (p & Hp & Hpos)].
  - unfold previousIndex in Hprev. by rewrite Hnone in Hprev.
  - destruct p as [| p].
    + unfold previousIndex in Hprev. by rewrite Hpos in Hprev.
    + exists p. split; [done |]. by rewrite <- (previousIndex_at st p Hp).
Qed.

(** X10.  Going to the next visible question and then to the previous
    one is back at the cursor one started from, and so is going to the
    previous one and then to the next. *)
Theorem next_and_previous_are_inverse st :
  (∀ t, nextIndex st = Some t →
     currentIndex (handleNext st) = t ∧
     previousIndex (handleNext st) = Some (currentIndex st) ∧
     currentIndex (handlePrevious (handleNext st)) = currentIndex st) ∧
  (∀ t, previousIndex st = Some t →
     currentIndex (handlePrevious st) = t ∧
     nextIndex (handlePrevious st) = Some (currentIndex st) ∧
     currentIndex (handleNext (handlePrevious st)) = currentIndex st).
Proof.
  split; intros t Ht.
  - destruct (nextIndex_Some st t Ht) as (p & Hp & Hsp).
    assert (Hmoved : handleNext st
                     = setStatusMessage None (setCurrentIndex t st)).
    { unfold handleNext. by rewrite Ht. }
    assert (Hback : previousIndex (handleNext st) = Some (currentIndex st)).
    { rewrite Hmoved. rewrite (previousIndex_at _ p); [done |]. exact Hsp. }
    split; [by rewrite Hmoved |]. split; [done |].
    unfold handlePrevious. by rewrite Hback.
  - destruct (previousIndex_Some st t Ht) as (p & Hsp & Hp).
    assert (Hmoved : handlePrevious st
                     = setStatusMessage None (setCurrentIndex t st)).
    { unfold handlePrevious. by rewrite Ht. }
    assert (Hback : nextIndex (handlePrevious st) = Some (currentIndex st)).
    { rewrite Hmoved. rewrite (nextIndex_at _ p); [done |]. exact Hp. }
    split; [by rewrite Hmoved |]. split; [done |].
    unfold handleNext. by rewrite Hback.
Qed.

(** X11.  The next target is the least visible index above the cursor
    and the previous target the greatest visible index below it. *)
Theorem targets_are_nearest_visible st :
  (∀ t, nextIndex st = Some t →
     t ∈ visible st ∧ currentIndex st < t ∧
     ∀ j, j ∈ visible st → currentIndex st < j → t ≤ j) ∧
  (∀ t, previousIndex st = Some t →
     t ∈ visible st ∧ t < currentIndex st ∧
     ∀ j, j ∈ visible st → j < currentIndex st → j ≤ t).
Proof.
  pose proof (visible_ascending st) as Hsorted.
  split; intros t Ht.
  - destruct (nextIndex_Some st t Ht) as (p & Hp & Hsp).
    split; [by eapply list_elem_of_lookup_2 |].
    split; [apply (ascending_lookup_lt _ p (S p) _ _ Hsorted Hp Hsp); lia |].
    intros j Hj Habove. apply list_elem_of_lookup in Hj as [pj Hpj].
    destruct (decide (pj < S p)) as [Hlow | Hhigh].
    + destruct (decide (pj = p)) as [-> | Hne]; [simplify_eq; lia |].
      pose proof (ascending_lookup_lt _ pj p _ _ Hsorted Hpj Hp). lia.
    + destruct (decide (pj = S p)) as [-> | Hne]; [simplify_eq; lia |].
      pose proof (ascending_lookup_lt _ (S p) pj _ _ Hsorted Hsp Hpj). lia.
  - destruct (previousIndex_Some st t Ht) as (p & Hsp & Hp).
    split; [by eapply list_elem_of_lookup_2 |].
    split; [apply (ascending_lookup_lt _ p (S p) _ _ Hsorted Hp Hsp); lia |].
    intros j Hj Hbelow. apply list_elem_of_lookup in Hj as [pj Hpj].
    destruct (decide (pj < S p)) as [Hlow | Hhigh].
    + destruct (decide (pj = p)) as [-> | Hne]; [simplify_eq; lia |].
      pose proof (ascending_lookup_lt _ pj p _ _ Hsorted Hpj Hp). lia.
    + destruct (decide (pj = S p)) as [-> | Hne]; [simplify_eq; lia |].
      pose proof (ascending_lookup_lt _ (S p) pj _ _ Hsorted Hsp Hpj). lia.
Qed.

(** X12.  From a settled state, going to the previous or next visible
    question never makes the cursor effect move the cursor again. *)
Theorem navigation_needs_no_correction st :
  settled st →
  step Previous st = handlePrevious st ∧ step Next st = handleNext st.
Proof.
  intros Hsettled.
  assert (Hgen : ∀ t, t ∈ visible st →
    cursorEffect (setStatusMessage None (setCurrentIndex t st))
    = setStatusMessage None (setCurrentIndex t st)).
  { intros t Ht. apply cursorEffect_noop. simpl. intros Hmode _.
    unfold visible in Ht. rewrite Hmode in Ht.
    by apply visibleIndices_wrong_subset in Ht. }
  unfold step. simpl. unfold handlePrevious, handleNext. split.
  - destruct (previousIndex st) as [t |] eqn:Ht; [| done].
    apply Hgen. destruct (previousIndex_Some st t Ht) as (p & _ & Hp).
    by eapply list_elem_of_lookup_2.
  - destruct (nextIndex st) as [t |] eqn:Ht; [| done].
    apply Hgen. destruct (nextIndex_Some st t Ht) as (p & _ & Hp).
    by eapply list_elem_of_lookup_2.
Qed.

(** X13.  A navigator button has the wrong status exactly when its
    index is a wrong index, so every button shown in wrong mode has it;
    and it has the pending status exactly when its slot does not count
    as answered. *)
Theorem navigator_status_matches_wrong_view
    (qs : list (QuestionItem num)) (answers : Ledger) (i : nat) :
  (questionStatus (default None (answers !! i)) = Wrong
   ↔ i ∈ wrongQuestionIndices answers) ∧
  (∀ query0 : string, i ∈ visibleIndices qs answers wrong query0 →
     questionStatus (default None (answers !! i)) = Wrong) ∧
  (questionStatus (default None (answers !! i)) = Pending
   ↔ isAnswered (default None (answers !! i)) = false).
Proof.
  assert (Hwrong : questionStatus (default None (answers !! i)) = Wrong
                   ↔ i ∈ wrongQuestionIndices answers).
  { rewrite elem_of_wrongQuestionIndices. split.
    - destruct (answers !! i) as [[a |] |] eqn:Hi; simpl; try done.
      destruct (correct a) as [[|] |] eqn:Hc; try done. eauto.
    - intros (a & -> & Hc). simpl. by rewrite Hc. }
  split; [done |]. split.
  - intros query0 Hi. apply Hwrong.
    by apply visibleIndices_wrong_subset in Hi.
  - destruct (answers !! i) as [[a |] |]; simpl; try done.
    by destruct (correct a) as [[|] |].
Qed.

End MoveFacts.

(** ** The pages a session goes through *)

Lemma loadAnswersFromStorage_length (saved : StorageRead) (size : nat) :
  length (loadAnswersFromStorage saved size) = size.
Proof.
  destruct saved as [| | parsed]; simpl;
    try apply getInitialAnswers_length.
  repeat case_decide; [done | |].
  - rewrite length_app, getInitialAnswers_length. lia.
  - rewrite length_take. lia.
Qed.

Section PageFacts.
Context {num : Type} {numOps : Js.Number num}.
Implicit Types (pg : Page num) (st : AppState num) (ev : UiEvent num)
  (q : QuestionItem num).

Lemma cursorEffect_other_cells st :
  questions (cursorEffect st) = questions st ∧
  statusMessage (cursorEffect st) = statusMessage st ∧
  searchQuery (cursorEffect st) = searchQuery st.
Proof.
  rewrite cursorEffect_cases. destruct (viewMode st); [done |].
  destruct (wrongQuestionIndices _); [done |].
  by destruct (Js.arrayIncludes _ _).
Qed.

Lemma cursorEffect_cursor st :
  currentIndex (cursorEffect st) = currentIndex st
  ∨ currentIndex (cursorEffect st) ∈ wrongQuestionIndices (userAnswers st).
Proof.
  rewrite cursorEffect_cases. destruct (viewMode st); [by left |].
  destruct (wrongQuestionIndices _) as [| first rest]; [by left |].
  destruct (Js.arrayIncludes _ _); [by left |].
  right. simpl. apply elem_of_cons. by left.
Qed.

Lemma card_shown pg q :
  renderBody pg = QuestionCard q →
  loading pg = false ∧ currentQuestion (app pg) = Some q.
Proof.
  unfold renderBody. destruct (loading pg); [done |].
  repeat match goal with
         | |- context [if ?b then _ else _] => destruct b; [done |]
         end.
  destruct (currentQuestion (app pg)); [| done].
  intros [= ->]. done.
Qed.

Lemma enabled_card ev pg :
  enabled ev pg = true →
  match ev with
  | ClickOption _ | ClickSubmit | ClickReset | ClickPrevious | ClickNext =>
      ∃ q, renderBody pg = QuestionCard q
  | _ => True
  end.
Proof.
  destruct ev; simpl; try done;
    destruct (renderBody pg); try done; eauto.
Qed.

Lemma enabled_submit pg :
  enabled ClickSubmit pg = true →
  ∃ q c, submitPath (app pg) = Grade q c ∧ c ≠ EmptyString ∧
         currentQuestion (app pg) = Some q ∧
         selectedChoice (app pg) = Some c.
Proof.
  intros Hen. destruct (enabled_card _ _ Hen) as [q Hcard].
  simpl in Hen. rewrite Hcard in Hen.
  apply andb_true_iff in Hen as [_ Hsel].
  destruct (card_shown pg q Hcard) as [_ Hq].
  destruct (selectedChoice (app pg)) as [c |] eqn:Hc; [| done].
  exists q, c. unfold submitPath. rewrite Hq, Hc, Hsel.
  repeat split; try done. by apply truthy_nonempty.
Qed.

Lemma handlePrevious_cells st :
  questions (handlePrevious st) = questions st ∧
  userAnswers (handlePrevious st) = userAnswers st ∧
  viewMode (handlePrevious st) = viewMode st ∧
  searchQuery (handlePrevious st) = searchQuery st.
Proof. unfold handlePrevious. by destruct (previousIndex st). Qed.

Lemma handleNext_cells st :
  questions (handleNext st) = questions st ∧
  userAnswers (handleNext st) = userAnswers st ∧
  viewMode (handleNext st) = viewMode st ∧
  searchQuery (handleNext st) = searchQuery st.
Proof. unfold handleNext. by destruct (nextIndex st). Qed.

Lemma handleToggleView_cells st :
  questions (handleToggleView st) = questions st ∧
  userAnswers (handleToggleView st) = userAnswers st ∧
  currentIndex (handleToggleView st) = currentIndex st ∧
  statusMessage (handleToggleView st) = statusMessage st.
Proof. unfold handleToggleView. by destruct (viewMode st). Qed.

(** What an enabled event does to the catalog and the ledger. *)
Lemma dispatch_ledger ev pg :
  enabled ev pg = true →
  length (userAnswers (app pg)) = length (questions (app pg)) →
  (questions (dispatch ev pg) = questions (app pg) ∧
   userAnswers (dispatch ev pg) = userAnswers (app pg)) ∨
  (questions (dispatch ev pg) = questions (app pg) ∧
   ∃ q a',
     questions (app pg) !! currentIndex (app pg) = Some q ∧
     currentIndex (app pg) < length (userAnswers (app pg)) ∧
     userAnswers (dispatch ev pg)
       = <[currentIndex (app pg) := Some a']> (userAnswers (app pg)) ∧
     ((∃ label, label ∈ map opt_label (options q) ∧
                a' = {| choice := Some label; correct := None |}) ∨
      (∃ c a, c ≠ EmptyString ∧
              userAnswers (app pg) !! currentIndex (app pg) = Some (Some a) ∧
              choice a = Some c ∧
              a' = {| choice := Some c;
                      correct := Some (String.eqb c (ans_label (answer q))) |})
      ∨ a' = blank)) ∨
  (questions (dispatch ev pg) = questions (app pg) ∧
   userAnswers (dispatch ev pg)
     = replicate (length (questions (app pg))) (Some blank)) ∨
  (∃ data, ev = FetchSucceeded data ∧ loading pg = true ∧
           questions (dispatch ev pg) = data ∧
           userAnswers (dispatch ev pg)
             = loadAnswersFromStorage (storage pg) (length data)).
Proof.
  intros Hen Hlen.
  assert (Hcard : ∀ q, renderBody pg = QuestionCard q →
            questions (app pg) !! currentIndex (app pg) = Some q ∧
            currentIndex (app pg) < length (userAnswers (app pg))).
  { intros q Hq. destruct (card_shown pg q Hq) as [_ Hcur].
    split; [done |]. rewrite Hlen. by eapply lookup_lt_Some. }
  pose proof (enabled_card ev pg Hen) as Hshown.
  destruct ev as [data | message | label | | | | | index | | query0 | |
                  confirmed removeThrows]; simpl.
  - right. right. right. exists data. by simpl in Hen.
  - by left.
  - destruct Hshown as [q Hq]. destruct (Hcard q Hq) as [Hlook Hi].
    right. left. split; [done |]. exists q. eexists.
    split; [done |]. split; [done |].
    split; [by apply assign_in_bounds |]. left. exists label.
    simpl in Hen. rewrite Hq in Hen.
    apply andb_true_iff in Hen as [Hopen Hlabel].
    split.
    + apply existsb_exists in Hlabel as (l & Hl & Heq).
      apply String.eqb_eq in Heq as ->. by apply list_elem_of_In.
    + f_equal. unfold isSubmitted, currentAnswer in Hopen.
      destruct (answerAt _ _) as [a |]; [| done]. simpl in *.
      by destruct (correct a).
  - destruct Hshown as [q Hq]. destruct (Hcard q Hq) as [Hlook Hi].
    destruct (enabled_submit pg Hen) as (q' & c & Hpath & Hc & Hq' & Hsel).
    assert (q' = q) as -> by (unfold currentQuestion in Hq'; congruence).
    right. left. unfold handleSubmit. rewrite Hpath. simpl.
    split; [done |]. exists q. eexists.
    split; [done |]. split; [done |].
    split; [by apply assign_in_bounds |]. right. left.
    unfold selectedChoice, currentAnswer, answerAt in Hsel.
    destruct (userAnswers (app pg) !! currentIndex (app pg))
      as [[a |] |]; try done.
    by exists c, a.
  - destruct Hshown as [q Hq]. destruct (Hcard q Hq) as [Hlook Hi].
    right. left. split; [done |]. exists q, blank.
    split; [done |]. split; [done |].
    split; [by apply assign_in_bounds | by right; right].
  - left. split; apply handlePrevious_cells.
  - left. split; apply handleNext_cells.
  - by left.
  - left. split; apply handleToggleView_cells.
  - by left.
  - by left.
  - unfold handleClearRecords.
    destruct (confirmed && negb removeThrows); [| by left].
    right. right. left. done.
Qed.

(** While the fetch is pending nothing but the query (and the stored
    entry, which a confirmed clear removes) can have changed. *)
Lemma ui_loading (stored : StorageRead) pg :
  uiReachable stored pg →
  loading pg = true →
  questions (app pg) = [] ∧ userAnswers (app pg) = [] ∧
  currentIndex (app pg) = 0 ∧ statusMessage (app pg) = None ∧
  (storage pg = stored ∨ storage pg = NoItem).
Proof.
  induction 1 as [| ev throws pg Hreach IH Hen]; intros Hloading.
  - repeat split; try done. by left.
  - assert (Hbefore : loading pg = true).
    { destruct ev; simpl in Hloading; done. }
    destruct (IH Hbefore) as (Hqs & Hans & Hcur & Hmsg & Hsto).
    assert (Hvis : visible (app pg) = []).
    { unfold visible, visibleIndices, searchResultIndices.
      rewrite Hqs, Hans.
      destruct (viewMode (app pg)), (Js.truthy _); done. }
    assert (Hcard : ∀ q, renderBody pg ≠ QuestionCard q).
    { intros q Hq. destruct (card_shown pg q Hq). congruence. }
    pose proof (enabled_card ev pg Hen) as Hshown.
    assert (Hkeep : ∀ st, questions st = [] → userAnswers st = [] →
              cursorEffect st = st).
    { intros st _ Hempty. rewrite cursorEffect_cases, Hempty.
      by destruct (viewMode st). }
    destruct ev as [data | message | label | | | | | index | | query0 | |
                    confirmed removeThrows];
      try (by simpl in Hloading);
      simpl in Hshown;
      try match type of Hshown with
          | ex _ => destruct Hshown as [q Hq]; by destruct (Hcard q)
          end.
    + simpl in Hen. by rewrite Hvis in Hen.
    + unfold uiStep. cbn [app storage setsUserAnswers dispatch].
      destruct (handleToggleView_cells (app pg)) as (Hq' & Ha' & Hc' & Hm').
      rewrite Hkeep by congruence.
      rewrite Hq', Ha', Hc', Hm'. done.
    + unfold uiStep. cbn [app storage setsUserAnswers dispatch].
      rewrite Hkeep by done. done.
    + unfold uiStep. cbn [app storage setsUserAnswers dispatch].
      rewrite Hkeep by done. done.
    + unfold uiStep. cbn [app storage setsUserAnswers dispatch].
      unfold handleClearRecords.
      destruct confirmed, removeThrows; simpl;
        rewrite ?Hqs; simpl; rewrite ?Hkeep by done; simpl;
        rewrite ?Hqs; repeat split; try done; by right.
Qed.

Lemma ui_lengths (stored : StorageRead) pg :
  uiReachable stored pg →
  length (userAnswers (app pg)) = length (questions (app pg)).
Proof.
  induction 1 as [| ev throws pg Hreach IH Hen]; [done |].
  unfold uiStep. cbn [app].
  rewrite cursorEffect_userAnswers, (proj1 (cursorEffect_other_cells _)).
  destruct (dispatch_ledger ev pg Hen IH)
    as [[-> ->] | [[-> (q & a' & _ & Hi & -> & _)] | [[-> ->] |
        (data & _ & _ & -> & ->)]]].
  - done.
  - by rewrite length_insert.
  - apply length_replicate.
  - apply loadAnswersFromStorage_length.
Qed.

End PageFacts.

Section SessionFacts.
Context {num : Type} {numOps : Js.Number num}.
Implicit Types (pg : Page num) (st : AppState num) (ev : UiEvent num)
  (q : QuestionItem num) (qs : list (QuestionItem num)) (answers : Ledger).

Lemma dispatch_cursor ev pg :
  enabled ev pg = true →
  currentIndex (dispatch ev pg) = currentIndex (app pg)
  ∨ currentIndex (dispatch ev pg) ∈ visible (app pg).
Proof.
  intros Hen. destruct ev; simpl; try (by left).
  - unfold handleSubmit. destruct (submitPath (app pg)); by left.
  - unfold handlePrevious.
    destruct (previousIndex (app pg)) as [t |] eqn:Ht; [| by left].
    right. destruct (previousIndex_Some _ t Ht) as (p & _ & Hp).
    by eapply list_elem_of_lookup_2.
  - unfold handleNext.
    destruct (nextIndex (app pg)) as [t |] eqn:Ht; [| by left].
    right. destruct (nextIndex_Some _ t Ht) as (p & _ & Hp).
    by eapply list_elem_of_lookup_2.
  - right. by apply arrayIncludes_elem_of.
  - left. apply handleToggleView_cells.
  - unfold handleClearRecords. destruct (_ && _); by left.
Qed.

Lemma ui_cursor (stored : StorageRead) pg :
  uiReachable stored pg →
  currentIndex (app pg) = 0
  ∨ currentIndex (app pg) < length (questions (app pg)).
Proof.
  induction 1 as [| ev throws pg Hreach IH Hen]; [by left |].
  pose proof (ui_lengths stored pg Hreach) as Hlen.
  pose proof (ui_lengths stored _ (ui_event stored ev throws pg Hreach Hen))
    as Hlen'.
  unfold uiStep in *. cbn [app] in *.
  rewrite cursorEffect_userAnswers in Hlen'.
  destruct (cursorEffect_other_cells (dispatch ev pg)) as (Hqs & _ & _).
  rewrite Hqs in Hlen' |- *.
  destruct (cursorEffect_cursor (dispatch ev pg)) as [-> | Hmoved].
  - destruct (dispatch_ledger ev pg Hen Hlen)
      as [[Hq _] | [[Hq _] | [[Hq _] | (data & -> & Hload & _)]]].
    + rewrite Hq. destruct (dispatch_cursor ev pg Hen) as [-> | Hvis];
        [done |]. right.
      apply visibleIndices_bound in Hvis.
      destruct (viewMode (app pg)); lia.
    + rewrite Hq. destruct (dispatch_cursor ev pg Hen) as [-> | Hvis];
        [done |]. right.
      apply visibleIndices_bound in Hvis.
      destruct (viewMode (app pg)); lia.
    + rewrite Hq. destruct (dispatch_cursor ev pg Hen) as [-> | Hvis];
        [done |]. right.
      apply visibleIndices_bound in Hvis.
      destruct (viewMode (app pg)); lia.
    + left. simpl. by apply (ui_loading stored pg).
  - right. apply wrongQuestionIndices_bound in Hmoved. lia.
Qed.

(** X14.  In every page of a session the ledger has one slot per
    question of the catalog, so the answered count shown never exceeds
    the number of questions. *)
Theorem ui_ledger_matches_catalog (stored : StorageRead) pg :
  uiReachable stored pg →
  length (userAnswers (app pg)) = length (questions (app pg)) ∧
  answeredCount (summary (questions (app pg)) (userAnswers (app pg)))
  ≤ length (questions (app pg)).
Proof.
  intros Hreach. pose proof (ui_lengths stored pg Hreach) as Hlen.
  split; [done |]. simpl. rewrite <- Hlen.
  generalize (userAnswers (app pg)). intros answers.
  induction answers as [| item rest IH]; simpl; [done |].
  destruct (isAnswered item); simpl; lia.
Qed.

(** X15.  In every page of a session with a non-empty catalog the
    cursor is a position of the catalog and of the ledger, and the card
    for a missing current question is never the one rendered. *)
Theorem ui_cursor_on_question (stored : StorageRead) pg :
  uiReachable stored pg →
  (questions (app pg) ≠ [] →
   is_Some (currentQuestion (app pg)) ∧
   is_Some (userAnswers (app pg) !! currentIndex (app pg))) ∧
  renderBody pg ≠ NoQuestionCard.
Proof.
  intros Hreach.
  pose proof (ui_lengths stored pg Hreach) as Hlen.
  pose proof (ui_cursor stored pg Hreach) as Hcur.
  assert (Hin : questions (app pg) ≠ [] →
                currentIndex (app pg) < length (questions (app pg))).
  { intros Hne. destruct (questions (app pg)); [done |]. simpl in *. lia. }
  split.
  - intros Hne. specialize (Hin Hne).
    split; apply lookup_lt_is_Some; [done | lia].
  - unfold renderBody. destruct (loading pg); [done |].
    destruct (match error pg with Some m => _ | None => _ end); [done |].
    destruct (_ && _); [done |].
    destruct (visible (app pg)) as [| i rest] eqn:Hvis; [done |]. simpl.
    assert (Hi : i ∈ visible (app pg)) by (rewrite Hvis; by left).
    apply visibleIndices_bound in Hi.
    assert (Hne : questions (app pg) ≠ []).
    { intros Hempty. rewrite Hempty in *. simpl in *.
      destruct (viewMode (app pg)); lia. }
    destruct (lookup_lt_is_Some_2 _ _ (Hin Hne)) as [q Hq].
    unfold currentQuestion. by rewrite Hq.
Qed.

(** X16.  No page of a session shows the hint of [handleSubmit]: the
    submit button is disabled while nothing is selected, so the status
    message stays [null]. *)
Theorem ui_hint_never_shown (stored : StorageRead) pg :
  uiReachable stored pg → statusMessage (app pg) = None.
Proof.
  induction 1 as [| ev throws pg Hreach IH Hen]; [done |].
  unfold uiStep. cbn [app].
  rewrite (proj1 (proj2 (cursorEffect_other_cells _))).
  destruct ev; simpl; try done.
  - destruct (enabled_submit pg Hen) as (q & c & Hpath & _).
    unfold handleSubmit. by rewrite Hpath.
  - unfold handlePrevious. by destruct (previousIndex (app pg)).
  - unfold handleNext. by destruct (nextIndex (app pg)).
  - by rewrite (proj2 (proj2 (proj2 (handleToggleView_cells _)))).
  - unfold handleClearRecords. by destruct (_ && _).
Qed.

(** A property of catalog and ledger that holds of blank ledgers and
    survives the three writes the controls can make holds in every page
    of a session whose stored ledger, once migrated, has it. *)
Lemma ui_ledger_invariant (inv : list (QuestionItem num) → Ledger → Prop)
    (stored : StorageRead) pg :
  (∀ qs, inv qs (replicate (length qs) (Some blank))) →
  (∀ qs answers i q a',
     inv qs answers → qs !! i = Some q → i < length answers →
     ((∃ label, label ∈ map opt_label (options q) ∧
                a' = {| choice := Some label; correct := None |}) ∨
      (∃ c a, c ≠ EmptyString ∧ answers !! i = Some (Some a) ∧
              choice a = Some c ∧
              a' = {| choice := Some c;
                      correct := Some (String.eqb c (ans_label (answer q))) |})
      ∨ a' = blank) →
     inv qs (<[i := Some a']> answers)) →
  uiReachable stored pg →
  inv (questions (app pg))
    (loadAnswersFromStorage stored (length (questions (app pg)))) →
  inv (questions (app pg)) (userAnswers (app pg)).
Proof.
  intros Hblank Hwrite.
  induction 1 as [| ev throws pg Hreach IH Hen]; intros Hstored.
  - apply (Hblank []).
  - pose proof (ui_lengths stored pg Hreach) as Hlen.
    unfold uiStep in *. cbn [app] in *.
    rewrite cursorEffect_userAnswers.
    rewrite (proj1 (cursorEffect_other_cells _)) in Hstored |- *.
    destruct (dispatch_ledger ev pg Hen Hlen)
      as [[Hq Ha] | [[Hq (q & a' & Hlook & Hi & Ha & Hkind)] | [[Hq Ha] |
          (data & -> & Hload & Hq & Ha)]]];
      rewrite Hq in Hstored |- *; rewrite Ha.
    + by apply IH.
    + apply Hwrite with q; try done. by apply IH.
    + apply Hblank.
    + destruct (ui_loading stored pg Hreach Hload)
        as (_ & _ & _ & _ & [-> | ->]); [done |].
      apply Hblank.
Qed.

End SessionFacts.

Section LedgerSoundness.
Context {num : Type} {numOps : Js.Number num}.
Implicit Types (pg : Page num) (ev : UiEvent num)
  (qs : list (QuestionItem num)) (answers : Ledger).

(** X17.  If the stored ledger, migrated to the size of the catalog, has
    no empty slot, then no page of the session has a ledger with an
    empty slot: the controls never write past the end of the ledger. *)
Theorem ui_no_empty_slot (stored : StorageRead) pg :
  uiReachable stored pg →
  noEmptySlot
    (loadAnswersFromStorage stored (length (questions (app pg)))) →
  noEmptySlot (userAnswers (app pg)).
Proof.
  apply (ui_ledger_invariant (fun _ answers => noEmptySlot answers)).
  - intros qs. by apply Forall_replicate.
  - intros qs answers i q a' Hinv _ _ _. by apply Forall_insert.
Qed.

(** X18.  If the stored ledger, migrated to the size of the catalog, is
    graded consistently against the catalog, so is the ledger of every
    page of the session: a graded slot holds a non-empty choice and
    exactly the grade that choice earns against the answer label of its
    question (graded options are disabled, so the choice cannot change
    under the grade). *)
Theorem ui_grades_are_sound (stored : StorageRead) pg :
  uiReachable stored pg →
  gradedAgainst (questions (app pg))
    (loadAnswersFromStorage stored (length (questions (app pg)))) →
  gradedAgainst (questions (app pg)) (userAnswers (app pg)).
Proof.
  apply (ui_ledger_invariant gradedAgainst).
  - intros qs i a b Hi. apply lookup_replicate in Hi as [[= ->] _]. done.
  - intros qs answers i q a' Hinv Hq Hi Hkind j a b Hj Hb.
    destruct (decide (j = i)) as [-> | Hne].
    + rewrite list_lookup_insert_eq in Hj by done. injection Hj as <-.
      destruct Hkind as [(label & _ & ->) | [(c & a0 & Hc & _ & _ & ->) | ->]];
        try done.
      simpl in Hb. injection Hb as <-. by exists q, c.
    + rewrite list_lookup_insert_ne in Hj by done. by apply (Hinv j a b).
Qed.

(** X19.  If every choice of the stored ledger, migrated to the size of
    the catalog, is the label of an option of the question at its
    position, the same holds of the ledger of every page of the
    session. *)
Theorem ui_choices_are_offered (stored : StorageRead) pg :
  uiReachable stored pg →
  choicesOffered (questions (app pg))
    (loadAnswersFromStorage stored (length (questions (app pg)))) →
  choicesOffered (questions (app pg)) (userAnswers (app pg)).
Proof.
  apply (ui_ledger_invariant choicesOffered).
  - intros qs i a c Hi. apply lookup_replicate in Hi as [[= ->] _]. done.
  - intros qs answers i q a' Hinv Hq Hi Hkind j a c Hj Hc.
    destruct (decide (j = i)) as [-> | Hne].
    + rewrite list_lookup_insert_eq in Hj by done. injection Hj as <-.
      destruct Hkind as [(label & Hlabel & ->) |
                         [(c0 & a0 & _ & Ha0 & Hc0 & ->) | ->]];
        simpl in Hc; try done.
      * injection Hc as <-. by exists q.
      * injection Hc as <-. apply (Hinv i a0 c0 Ha0 Hc0).
    + rewrite list_lookup_insert_ne in Hj by done. by apply (Hinv j a c).
Qed.

(** X20.  An enabled event whose handler sets the ledger leaves, when
    the write succeeds and the catalog is not empty, the new ledger in
    the stored entry, from which a later load for a catalog of the same
    size returns exactly that ledger; an event whose handler does not
    set the ledger leaves the stored entry as it is. *)
Theorem ui_mutation_persisted (stored : StorageRead) pg ev
    (setItemThrows : bool) :
  uiReachable stored pg →
  enabled ev pg = true →
  (setsUserAnswers ev pg = true →
   questions (app (uiStep ev false pg)) ≠ [] →
   storage (uiStep ev false pg)
     = Parsed (userAnswers (app (uiStep ev false pg))) ∧
   loadAnswersFromStorage (storage (uiStep ev false pg))
     (length (questions (app (uiStep ev false pg))))
   = userAnswers (app (uiStep ev false pg))) ∧
  (setsUserAnswers ev pg = false →
   storage (uiStep ev setItemThrows pg) = storage pg).
Proof.
  intros Hreach Hen. split.
  - intros Hsets Hne.
    pose proof (ui_lengths stored _ (ui_event stored ev false pg Hreach Hen))
      as Hlen.
    set (pg' := uiStep ev false pg) in *.
    assert (Hsto : storage pg' = Parsed (userAnswers (app pg'))).
    { unfold pg', uiStep at 1. cbn [storage]. rewrite Hsets.
      unfold saveEffect, saveAnswersToStorage.
      fold (app pg'). change (cursorEffect (dispatch ev pg)) with (app pg').
      destruct (Nat.ltb_spec 0 (length (userAnswers (app pg')))); [done |].
      destruct (questions (app pg')); [done |]. simpl in *. lia. }
    split; [done |]. rewrite Hsto. simpl. by rewrite decide_True.
  - intros Hsets. unfold uiStep. cbn [storage]. rewrite Hsets.
    destruct ev as [| | | | | | | | | | | [|] [|]]; try done.
Qed.

(** X21.  After a confirmed clear whose removal succeeds, the stored
    entry is gone only if the catalog is empty or the write that follows
    fails: with a non-empty catalog the saving effect stores the blank
    ledger again.  Either way a later load for the same catalog returns
    the blank ledger. *)
Theorem ui_clear_records_storage pg (setItemThrows : bool) :
  let cleared := uiStep (ClickClearRecords true false) setItemThrows pg in
  userAnswers (app cleared)
    = replicate (length (questions (app pg))) (Some blank) ∧
  (questions (app pg) ≠ [] → setItemThrows = false →
   storage cleared
     = Parsed (replicate (length (questions (app pg))) (Some blank))) ∧
  (questions (app pg) = [] ∨ setItemThrows = true →
   storage cleared = NoItem) ∧
  loadAnswersFromStorage (storage cleared) (length (questions (app pg)))
    = replicate (length (questions (app pg))) (Some blank).
Proof.
  intros cleared.
  assert (Hledger : userAnswers (app cleared)
            = replicate (length (questions (app pg))) (Some blank)).
  { unfold cleared, uiStep. cbn [app dispatch].
    by rewrite cursorEffect_userAnswers. }
  assert (Hsto : storage cleared
            = saveEffect (replicate (length (questions (app pg))) (Some blank))
                setItemThrows NoItem).
  { rewrite <- Hledger. done. }
  split; [done |]. rewrite Hsto. unfold saveEffect, saveAnswersToStorage.
  rewrite length_replicate. split; [| split].
  - intros Hne ->. destruct (questions (app pg)); [done |]. done.
  - intros [-> | ->]; [done |]. by destruct (0 <? _).
  - destruct (0 <? length (questions (app pg))), setItemThrows; simpl;
      try done.
    by rewrite decide_True by apply length_replicate.
Qed.

End LedgerSoundness.

(** * The conversion script *)

Section ConvertFacts.
Context {num : Type}.
Variable parseScore : string → option num.
Variable normalizeQuestion : string → string.
Variable parseOptions : string → list QuestionOption.
Variable parseAnswer : string → option QuestionAnswer.
Variable stripOptionPrefix : string → string.

#[local] Abbreviation convertBlock :=
  (ConvertQuiz.convertBlock parseScore normalizeQuestion parseOptions
     parseAnswer stripOptionPrefix).
#[local] Abbreviation convertBlocks :=
  (ConvertQuiz.convertBlocks parseScore normalizeQuestion parseOptions
     parseAnswer stripOptionPrefix).
#[local] Abbreviation toJson :=
  (ConvertQuiz.toJson parseScore normalizeQuestion parseOptions
     parseAnswer stripOptionPrefix).

Implicit Types (blocks : list string) (qs : list (QuestionItem num)).

Lemma optionLinesOf_cons (line : string) (rest : list string) :
  ConvertQuiz.optionLinesOf stripOptionPrefix (line :: rest)
  = if String.prefix ConvertQuiz.answerPrefix line then []
    else Js.trim (stripOptionPrefix line)
         :: ConvertQuiz.optionLinesOf stripOptionPrefix rest.
Proof. done. Qed.

Lemma convertBlock_inr block lines qs q :
  convertBlock block lines qs = inr q →
  id q = (Z.of_nat (length qs) + 1)%Z ∧
  ∃ line, List.find (String.prefix ConvertQuiz.answerPrefix) lines = Some line
          ∧ parseAnswer line = Some (answer q).
Proof.
  unfold ConvertQuiz.convertBlock.
  destruct (List.find _ lines) as [line |]; [| done].
  destruct (parseAnswer line) as [parsed |] eqn:Hparsed; [| done].
  intros [= <-]. simpl. eauto.
Qed.

Lemma convertBlocks_spec blocks qs0 :
  match convertBlocks blocks qs0 with
  | inr qs =>
      ∃ added, qs = qs0 ++ added ∧
        Forall2 (fun block q =>
                   ∃ earlier, length earlier = Z.to_nat (id q - 1) ∧
                     convertBlock block (ConvertQuiz.linesOf block) earlier
                     = inr q)
          (List.filter
             (fun block => negb (length (ConvertQuiz.linesOf block) <? 3))
             blocks)
          added ∧
        ∀ i q, added !! i = Some q →
          id q = (Z.of_nat (length qs0 + i) + 1)%Z
  | inl _ =>
      ∃ block, block ∈ blocks ∧ 3 ≤ length (ConvertQuiz.linesOf block) ∧
        ∀ line, List.find (String.prefix ConvertQuiz.answerPrefix)
                  (ConvertQuiz.linesOf block) = Some line →
                parseAnswer line = None
  end.
Proof.
  revert qs0. induction blocks as [| block rest IH]; intros qs0; simpl.
  - exists []. rewrite app_nil_r. split; [done |]. split; [constructor | done].
  - destruct (Nat.ltb_spec (length (ConvertQuiz.linesOf block)) 3) as [Hshort | Hlong];
      simpl.
    + specialize (IH qs0). destruct (convertBlocks rest qs0) as [err | qs].
      * destruct IH as (b & Hb & Hrest). exists b.
        split; [apply elem_of_cons; by right | done].
      * done.
    + destruct (convertBlock block (ConvertQuiz.linesOf block) qs0)
        as [err | q] eqn:Hblock.
      * exists block. split; [apply elem_of_cons; by left |].
        split; [done |]. intros line Hline.
        unfold ConvertQuiz.convertBlock in Hblock. rewrite Hline in Hblock.
        by destruct (parseAnswer line).
      * specialize (IH (qs0 ++ [q])).
        destruct (convertBlocks rest (qs0 ++ [q])) as [err | qs].
        { destruct IH as (b & Hb & Hrest). exists b.
          split; [apply elem_of_cons; by right | done]. }
        destruct IH as (added & -> & Hall & Hids).
        destruct (convertBlock_inr _ _ _ _ Hblock) as [Hid _].
        exists (q :: added). rewrite <- app_assoc. split; [done |].
        split.
        { constructor; [| done]. exists qs0. split; [lia | done]. }
        intros i q' Hi. destruct i as [| i]; simpl in Hi.
        { injection Hi as <-. rewrite Hid. lia. }
        rewrite (Hids i q' Hi), length_app. simpl. lia.
Qed.

(** X22.  When the conversion succeeds, the questions written carry the
    ids 1, 2, 3, ... in order: the id of a question is its position in
    the catalog plus one. *)
Theorem toJson_ids_are_positions (rawBlocks : list string) qs i q :
  toJson rawBlocks = inr qs →
  qs !! i = Some q →
  id q = (Z.of_nat i + 1)%Z.
Proof.
  unfold ConvertQuiz.toJson. intros Hok Hq.
  pose proof (convertBlocks_spec
    (List.filter Js.truthy (map Js.trim rawBlocks)) []) as Hspec.
  rewrite Hok in Hspec. destruct Hspec as (added & -> & _ & Hids).
  simpl in Hq. by rewrite (Hids i q Hq).
Qed.

(** X23.  When the conversion succeeds, the questions written are, in
    order, the conversions of the blocks of at least three non-blank
    lines, one question per such block; each was built by the loop body
    from its block with as many questions before it as its id says, and
    carries the answer parsed from the first line of the block that
    starts with the answer prefix. *)
Theorem toJson_one_question_per_block (rawBlocks : list string) qs :
  toJson rawBlocks = inr qs →
  length qs = length (ConvertQuiz.eligible rawBlocks) ∧
  Forall2 (fun block q =>
             (∃ earlier, length earlier = Z.to_nat (id q - 1) ∧
                convertBlock block (ConvertQuiz.linesOf block) earlier
                = inr q) ∧
             ∃ line,
               List.find (String.prefix ConvertQuiz.answerPrefix)
                 (ConvertQuiz.linesOf block) = Some line
               ∧ parseAnswer line = Some (answer q))
    (ConvertQuiz.eligible rawBlocks) qs.
Proof.
  unfold ConvertQuiz.toJson, ConvertQuiz.eligible. intros Hok.
  pose proof (convertBlocks_spec
    (List.filter Js.truthy (map Js.trim rawBlocks)) []) as Hspec.
  rewrite Hok in Hspec. destruct Hspec as (added & -> & Hall & _).
  simpl. split; [symmetry; by eapply Forall2_length |].
  eapply Forall2_impl; [exact Hall |].
  intros block q (earlier & Hlen & Hblock). split; [eauto |].
  by destruct (convertBlock_inr _ _ _ _ Hblock) as [_ Hline].
Qed.


(** X25.  The option lines of a block are the lines after the first one
    up to, and not including, the first line that starts with the answer
    prefix, each with its option prefix stripped and trimmed: whatever
    follows the answer line is ignored. *)
Theorem optionLinesOf_stops_at_answer (before after : list string)
    (answerLine : string) :
  Forall (fun line => String.prefix ConvertQuiz.answerPrefix line = false)
    before →
  String.prefix ConvertQuiz.answerPrefix answerLine = true →
  ConvertQuiz.optionLinesOf stripOptionPrefix
    (before ++ answerLine :: after)
  = map (fun line => Js.trim (stripOptionPrefix line)) before ∧
  ConvertQuiz.optionLinesOf stripOptionPrefix before
  = map (fun line => Js.trim (stripOptionPrefix line)) before.
Proof.
  intros Hbefore Hanswer.
  induction Hbefore as [| line rest Hline Hrest [IH1 IH2]].
  - rewrite app_nil_l, optionLinesOf_cons, Hanswer. done.
  - rewrite <- app_comm_cons, !optionLinesOf_cons, Hline, IH1, IH2. done.
Qed.

End ConvertFacts.

(** * Further concrete runs *)

Lemma samplePage_reachable : uiReachable NoItem samplePage.
Proof. unfold samplePage. repeat (apply ui_event; [| reflexivity]). constructor. Qed.

Lemma blank_ledger_sound (qs : list (QuestionItem Z)) (n : nat) :
  noEmptySlot (replicate n (Some blank)) ∧
  gradedAgainst qs (replicate n (Some blank)) ∧
  choicesOffered qs (replicate n (Some blank)).
Proof.
  split; [by apply Forall_replicate |].
  split; intros i a ? Hi; apply lookup_replicate in Hi as [[= ->] _]; done.
Qed.

Lemma select_keeps_summary_and_views_witness :
  wrongQuestionIndices (userAnswers (handleSelect "A" sampleAnswered))
  = wrongQuestionIndices (userAnswers sampleAnswered).
Proof.
  refine (proj1 (proj2
    (select_keeps_summary_and_views sampleAnswered "A" _))).
  vm_compute. lia.
Defined.

Lemma submit_updates_counts_witness :
  answeredCount
    (summary sampleCatalog
       (userAnswers (handleSubmit (handleSelect "A" sampleFresh))))
  = S (answeredCount
         (summary sampleCatalog (userAnswers (handleSelect "A" sampleFresh)))).
Proof.
  refine (proj1 (submit_updates_counts (handleSelect "A" sampleFresh)
    (mkQuestion 1 "Which protocol is stateless" (Some 1%Z)
       [mkOption "A" "HTTP"; mkOption "B" "FTP"] "A")
    {| choice := Some "A"%string; correct := None |} "A"
    eq_refl eq_refl eq_refl _ eq_refl)).
  discriminate.
Defined.


Lemma visibleIndices_in_bounds_witness :
  1 < length (userAnswers sampleAnswered).
Proof.
  refine (proj1 (proj2
    (visibleIndices_in_bounds sampleCatalog (userAnswers sampleAnswered)
       wrong EmptyString 1 _)) eq_refl).
  apply elem_of_cons. by left.
Defined.

Lemma visible_count_within_search_count_witness :
  length (visibleIndices sampleCatalog (userAnswers sampleAnswered)
            wrong "http")
  ≤ length (searchResultIndices sampleCatalog "http").
Proof.
  apply (visible_count_within_search_count sampleCatalog
           (userAnswers sampleAnswered) wrong "http").
  discriminate.
Defined.

Lemma search_narrows_with_longer_query_witness :
  0 ∈ searchResultIndices sampleCatalog "tt".
Proof.
  apply (search_narrows_with_longer_query sampleCatalog "tt" "HTTP" 0).
  - discriminate.
  - by exists "h"%string, "p"%string.
  - apply elem_of_cons. by left.
Defined.

Lemma navigation_needs_no_correction_witness :
  step Next sampleAnswered = handleNext sampleAnswered.
Proof.
  refine (proj2 (navigation_needs_no_correction sampleAnswered _)).
  reflexivity.
Defined.

Lemma ui_ledger_matches_catalog_witness :
  length (userAnswers (app samplePage)) = length (questions (app samplePage)).
Proof.
  exact (proj1 (ui_ledger_matches_catalog NoItem samplePage
                  samplePage_reachable)).
Defined.

Lemma ui_cursor_on_question_witness : renderBody samplePage ≠ NoQuestionCard.
Proof.
  exact (proj2 (ui_cursor_on_question NoItem samplePage
                  samplePage_reachable)).
Defined.

Lemma ui_hint_never_shown_witness : statusMessage (app samplePage) = None.
Proof. exact (ui_hint_never_shown NoItem samplePage samplePage_reachable). Defined.

Lemma ui_no_empty_slot_witness : noEmptySlot (userAnswers (app samplePage)).
Proof.
  apply (ui_no_empty_slot NoItem samplePage samplePage_reachable).
  apply (blank_ledger_sound sampleCatalog 3).
Defined.

Lemma ui_grades_are_sound_witness :
  gradedAgainst sampleCatalog (userAnswers (app samplePage)).
Proof.
  apply (ui_grades_are_sound NoItem samplePage samplePage_reachable).
  apply (blank_ledger_sound sampleCatalog 3).
Defined.

Lemma ui_choices_are_offered_witness :
  choicesOffered sampleCatalog (userAnswers (app samplePage)).
Proof.
  apply (ui_choices_are_offered NoItem samplePage samplePage_reachable).
  apply (blank_ledger_sound sampleCatalog 3).
Defined.

Lemma ui_mutation_persisted_witness :
  loadAnswersFromStorage (storage (uiStep ClickReset false samplePage)) 3
  = userAnswers (app (uiStep ClickReset false samplePage)).
Proof.
  refine (proj2 (proj1 (ui_mutation_persisted NoItem samplePage ClickReset
    false samplePage_reachable eq_refl) eq_refl _)).
  discriminate.
Defined.

Lemma toJson_ids_are_positions_witness :
  ∃ qs q, sampleToJson sampleBlocks = inr qs ∧ qs !! 1 = Some q
          ∧ id q = 2%Z.
Proof.
  eexists. eexists. split; [vm_compute; reflexivity |].
  split; [reflexivity |].
  eapply (toJson_ids_are_positions (fun _ => None) (fun line => line)
            (fun _ => []) sampleParseAnswer (fun line => line)
            sampleBlocks _ 1); reflexivity.
Defined.

Lemma toJson_one_question_per_block_witness :
  ∃ qs, sampleToJson sampleBlocks = inr qs
        ∧ length qs = length (ConvertQuiz.eligible sampleBlocks).
Proof.
  eexists. split; [vm_compute; reflexivity |].
  eapply (toJson_one_question_per_block (fun _ => None) (fun line => line)
            (fun _ => []) sampleParseAnswer (fun line => line)
            sampleBlocks).
  reflexivity.
Defined.

Lemma optionLinesOf_stops_at_answer_witness :
  ConvertQuiz.optionLinesOf (fun line => line)
    ["A. u B. v"%string; "答案: B. v"%string; "note"%string]
  = ["A. u B. v"%string].
Proof.
  refine (proj1 (optionLinesOf_stops_at_answer (fun line => line)
    ["A. u B. v"%string] ["note"%string] "答案: B. v" _ eq_refl)).
  by constructor.
Defined.

Lemma clear_records_resets_ledger_witness :
  wrongQuestionIndices
    (userAnswers (handleClearRecords true false sampleAnswered)) = [] ∧
  handleClearRecords false false sampleAnswered = sampleAnswered.
Proof.
  destruct (clear_records_resets_ledger sampleAnswered false false)
    as (_ & _ & _ & _ & _ & Hwrongs & _ & Hdeclined).
  split; [exact Hwrongs | apply Hdeclined; by left].
Defined.

Lemma toggle_button_agrees_with_wrong_view_witness :
  toggleViewDisabled sampleFresh = true.
Proof.
  apply (proj1 (proj2 (toggle_button_agrees_with_wrong_view sampleFresh))).
  split; reflexivity.
Defined.

Lemma visibleIndices_by_mode_witness :
  visibleIndices sampleCatalog (userAnswers sampleAnswered) wrong "  "
  = wrongQuestionIndices (userAnswers sampleAnswered).
Proof.
  apply (proj1 (proj2 (visibleIndices_by_mode sampleCatalog
                         (userAnswers sampleAnswered) "  "))).
  reflexivity.
Defined.

Lemma next_and_previous_are_inverse_witness :
  currentIndex (handlePrevious (handleNext sampleAnswered))
  = currentIndex sampleAnswered.
Proof.
  exact (proj2 (proj2
    (proj1 (next_and_previous_are_inverse sampleAnswered) 1 eq_refl))).
Defined.

Lemma targets_are_nearest_visible_witness :
  currentIndex sampleAnswered < 1.
Proof.
  exact (proj1 (proj2
    (proj1 (targets_are_nearest_visible sampleAnswered) 1 eq_refl))).
Defined.

Lemma navigator_status_matches_wrong_view_witness :
  questionStatus (default None (userAnswers sampleAnswered !! 1)) = Wrong.
Proof.
  apply (proj1 (navigator_status_matches_wrong_view sampleCatalog
                  (userAnswers sampleAnswered) 1)).
  apply elem_of_cons. by left.
Defined.

Lemma ui_clear_records_storage_witness :
  storage (uiStep (ClickClearRecords true false) false samplePage)
  = Parsed (replicate 3 (Some blank)).
Proof.
  apply (proj1 (proj2 (ui_clear_records_storage samplePage false)));
    [discriminate | reflexivity].
Defined.

